(** * Vote casting and tallying of the election API, embedded in Rocq

    The development follows [main.py] and [schemas.py]: the MongoDB
    collections are lists of typed documents, every driver call of a
    route is one atomic store access, and a route is a finite tree of
    such accesses.  The same tree is run sequentially (one request) and
    interleaved (several requests served at once). *)

From Stdlib Require Import ZArith NArith List String Ascii Bool Lia.
From Stdlib Require Import Floats.SpecFloat.
From Stdlib Require Import Sorting.Sorted.
From stdpp Require Import base option list gmap strings fin_maps.

Local Open Scope string_scope.
Local Open Scope Z_scope.
Local Open Scope list_scope.

(* ===================================================================== *)
(** ** bson.objectid.ObjectId *)
(* ===================================================================== *)

Module Bson.

(** An ObjectId is its [binary] value. *)
Record ObjectId := Oid { binary : list N }.

#[global] Instance ObjectId_eq_dec : EqDecision ObjectId.
Proof. solve_decision. Defined.

(** Value of one hexadecimal digit, upper or lower case. *)
Definition hex_value (c : ascii) : option N :=
  let n := N_of_ascii c in
  if ((48 <=? n) && (n <=? 57))%N then Some (n - 48)%N
  else if ((97 <=? n) && (n <=? 102))%N then Some (n - 87)%N
  else if ((65 <=? n) && (n <=? 70))%N then Some (n - 55)%N
  else None.

(** ASCII white space, skipped by [bytes.fromhex] between two bytes. *)
Definition is_space (c : ascii) : bool :=
  let n := N_of_ascii c in
  ((n =? 32) || ((9 <=? n) && (n <=? 13)))%N.

(** [bytes.fromhex]: two digits per byte, white space between bytes is
    ignored, anything else is a [ValueError] (here [None]). *)
Fixpoint fromhex (s : list ascii) : option (list N) :=
  match s with
  | [] => Some []
  | c :: r =>
      if is_space c then fromhex r
      else match hex_value c, r with
           | Some hi, d :: r' =>
               match hex_value d with
               | Some lo =>
                   match fromhex r' with
                   | Some bs => Some ((16 * hi + lo)%N :: bs)
                   | None => None
                   end
               | None => None
               end
           | _, _ => None
           end
  end.

(** [ObjectId(oid)] for a [str] argument: the string must have 24
    characters and be accepted by [bytes.fromhex]; otherwise
    [InvalidId] is raised (here [None]). *)
Definition parse (oid : string) : option ObjectId :=
  if (String.length oid =? 24)%nat
  then Oid <$> fromhex (list_ascii_of_string oid)
  else None.

Definition hex_digit (n : N) : ascii :=
  if (n <? 10)%N then ascii_of_N (48 + n) else ascii_of_N (87 + n).

Fixpoint hex (bs : list N) : string :=
  match bs with
  | [] => EmptyString
  | b :: r => String (hex_digit (b / 16)) (String (hex_digit (b mod 16)) (hex r))
  end.

(** [str(oid)]: the lower-case hexadecimal form of the binary value. *)
Definition str (o : ObjectId) : string := hex (binary o).

End Bson.

Import Bson.

(* ===================================================================== *)
(** ** Documents of the four collections ([schemas.py]) *)
(* ===================================================================== *)

(** A field read with [doc.get(key, default)] may be missing from the
    stored document: it is an [option]. *)

Record Voter := {
  nim : string;
  name : option string;
  program : option string;
  eligible : option bool
}.

Record VoterStatus := {
  st_nim : string;
  has_voted : option bool;
  voted_at : option string
}.

Record Candidate := {
  _id : ObjectId;
  number : Z;
  president_name : string;
  vice_name : string;
  vision : option string;
  mission : option (list string);
  photo_url : option string
}.

(** The vote record has one field and no other. *)
Record Vote := { candidate_id : string }.

#[global] Instance Vote_eq_dec : EqDecision Vote.
Proof. solve_decision. Defined.

(** The database: one list of documents per collection, in natural
    (insertion) order. *)
Record DB := {
  voter : list Voter;
  voterstatus : list VoterStatus;
  candidate : list Candidate;
  vote : list Vote
}.

(* ===================================================================== *)
(** ** Requests, responses and errors ([main.py]) *)
(* ===================================================================== *)

Record ValidateRequest := { vq_nim : string }.

Record ValidateResponse := {
  vp_nim : string;
  vp_eligible : bool;
  vp_has_voted : bool
}.

Record VoteRequest := {
  vr_nim : string;
  vr_candidate_id : string
}.

(** [Field(..., min_length=8, max_length=20)] on [nim]. *)
Definition nim_ok (s : string) : bool :=
  ((8 <=? String.length s) && (String.length s <=? 20))%nat.

Definition VoteRequest_valid (p : VoteRequest) : bool := nim_ok (vr_nim p).
Definition ValidateRequest_valid (p : ValidateRequest) : bool := nim_ok (vq_nim p).

(** What a route raises: an [HTTPException] of the route itself, or an
    exception of the store driver, which the framework turns into an
    internal server error. *)
Inductive error :=
| HTTPException (status_code : Z) (detail : string)
| StoreError.

Definition InvalidInput : error := HTTPException 400 "Invalid candidate_id".
Definition NotEligible : error := HTTPException 403 "NIM is not eligible to vote".
Definition AlreadyVoted : error := HTTPException 409 "This NIM has already voted".
Definition CandidateNotFound : error := HTTPException 404 "Candidate not found".

(** [objid]: [ObjectId(oid)], any exception becoming a 400. *)
Definition objid (oid : string) : ObjectId + error :=
  match Bson.parse oid with
  | Some o => inl o
  | None => inr InvalidInput
  end.

(* ===================================================================== *)
(** ** Store accesses *)
(* ===================================================================== *)

Inductive collection := coll_voter | coll_voterstatus | coll_candidate | coll_vote.

Inductive access := Read (c : collection) | Write (c : collection).

#[global] Instance collection_eq_dec : EqDecision collection.
Proof. solve_decision. Defined.
#[global] Instance access_eq_dec : EqDecision access.
Proof. solve_decision. Defined.

(** One driver call, indexed by what it returns. *)
Inductive op : Type -> Type :=
| find_one_voter (n : string) : op (option Voter)
| find_one_voterstatus (n : string) : op (option VoterStatus)
| find_one_candidate (o : ObjectId) : op (option Candidate)
| find_candidates : op (list Candidate)
| create_document_vote (v : Vote) : op unit
| update_one_voterstatus (n : string) (now : string) : op unit
| aggregate_vote : op (list (string * Z)).

Definition access_of {X} (o : op X) : access :=
  match o with
  | find_one_voter _ => Read coll_voter
  | find_one_voterstatus _ => Read coll_voterstatus
  | find_one_candidate _ => Read coll_candidate
  | find_candidates => Read coll_candidate
  | create_document_vote _ => Write coll_vote
  | update_one_voterstatus _ _ => Write coll_voterstatus
  | aggregate_vote => Read coll_vote
  end.

(** [find_one({"nim": n})]: the first matching document. *)
Definition lookup_voter (n : string) (l : list Voter) : option Voter :=
  find (fun d => String.eqb (nim d) n) l.

Definition lookup_status (n : string) (l : list VoterStatus) : option VoterStatus :=
  find (fun d => String.eqb (st_nim d) n) l.

Definition lookup_candidate (o : ObjectId) (l : list Candidate) : option Candidate :=
  find (fun d => bool_decide (_id d = o)) l.

(** [update_one({"nim": n}, {"$set": {nim, has_voted: True, voted_at}},
    upsert=True)]: the first matching document gets the three fields; when
    none matches, a document made of them is inserted. *)
Definition voted_doc (n now : string) : VoterStatus :=
  {| st_nim := n; has_voted := Some true; voted_at := Some now |}.

Fixpoint upsert_voted (n now : string) (l : list VoterStatus) : list VoterStatus :=
  match l with
  | [] => [voted_doc n now]
  | d :: r =>
      if String.eqb (st_nim d) n then voted_doc n now :: r
      else d :: upsert_voted n now r
  end.

(** [{"$group": {"_id": "$candidate_id", "count": {"$sum": 1}}}]: one row
    per distinct [candidate_id], with the number of votes that carry it. *)
Fixpoint bump (k : string) (rows : list (string * Z)) : list (string * Z) :=
  match rows with
  | [] => [(k, 1)]
  | (k', c) :: r => if String.eqb k' k then (k', c + 1) :: r else (k', c) :: bump k r
  end.

Definition group_count (votes : list Vote) : list (string * Z) :=
  fold_left (fun rows v => bump (candidate_id v) rows) votes [].

(** The world a route runs in: the database and the accesses made so
    far. *)
Record world := { db : DB; trace : list access }.

(** Modelled from the spec: [database.create_document] is not among the
    sources.  The Ballot Store is an append-only collection whose
    [append] answers ok or error: the record goes to the end of the
    collection. *)
Definition append_vote (v : Vote) (d : DB) : DB :=
  {| voter := voter d; voterstatus := voterstatus d;
     candidate := candidate d; vote := vote d ++ [v] |}.

Definition set_voterstatus (l : list VoterStatus) (d : DB) : DB :=
  {| voter := voter d; voterstatus := l;
     candidate := candidate d; vote := vote d |}.

(** Effect of a driver call that goes through. *)
Definition perform {X} (o : op X) (d : DB) : X * DB :=
  match o in op T return T * DB with
  | find_one_voter n => (lookup_voter n (voter d), d)
  | find_one_voterstatus n => (lookup_status n (voterstatus d), d)
  | find_one_candidate i => (lookup_candidate i (candidate d), d)
  | find_candidates => (candidate d, d)
  | create_document_vote v => (tt, append_vote v d)
  | update_one_voterstatus n now =>
      (tt, set_voterstatus (upsert_voted n now (voterstatus d)) d)
  | aggregate_vote => (group_count (vote d), d)
  end.

(** A driver call in a world.  [faulty k] tells whether the store fails
    the access number [k] (counted from 0 over the whole trace); a failed
    access is recorded and changes nothing. *)
Definition exec (faulty : nat -> bool) {X} (o : op X) (w : world) : (X + error) * world :=
  let t := trace w ++ [access_of o] in
  if faulty (length (trace w)) then (inr StoreError, {| db := db w; trace := t |})
  else let '(x, d) := perform o (db w) in (inl x, {| db := d; trace := t |}).

Definition reliable : nat -> bool := fun _ => false.

(* ===================================================================== *)
(** ** Routes as trees of store accesses *)
(* ===================================================================== *)

Inductive prog (A : Type) : Type :=
| Ret (a : A)
| Raise (e : error)
| Call {X : Type} (o : op X) (k : X -> prog A).

Arguments Ret {A} a.
Arguments Raise {A} e.
Arguments Call {A X} o k.

Notation "x <- o ;; k" := (Call o (fun x => k))
  (at level 100, o at next level, right associativity).

(** Running one request alone, to its end. *)
Fixpoint run (faulty : nat -> bool) {A} (p : prog A) (w : world) : (A + error) * world :=
  match p with
  | Ret a => (inl a, w)
  | Raise e => (inr e, w)
  | Call o k =>
      match exec faulty o w with
      | (inl x, w') => run faulty (k x) w'
      | (inr e, w') => (inr e, w')
      end
  end.

(** Python truth of what [find_one] returned and of a field read with a
    default. *)
Definition found {A} (d : option A) : bool :=
  match d with Some _ => true | None => false end.

Definition get_eligible (v : Voter) : bool := default true (eligible v).
Definition get_has_voted (s : VoterStatus) : bool := default false (has_voted s).

(** [validate_voter] *)
Definition validate_voter (payload : ValidateRequest) : prog ValidateResponse :=
  let n := vq_nim payload in
  v <- find_one_voter n ;;
  let elig := match v with Some v' => get_eligible v' | None => false end in
  status <- find_one_voterstatus n ;;
  let voted := match status with Some s => get_has_voted s | None => false end in
  if negb (found v)
  then Ret {| vp_nim := n; vp_eligible := false; vp_has_voted := false |}
  else Ret {| vp_nim := n; vp_eligible := elig; vp_has_voted := voted |}.

(** [cast_vote]; [now] is what [datetime.now(timezone.utc).isoformat()]
    gives at step 5.  The answer [true] is the body [{"success": True}]. *)
Definition cast_vote (now : string) (payload : VoteRequest) : prog bool :=
  let n := vr_nim payload in
  let cid := vr_candidate_id payload in
  (* 1) Check voter eligibility *)
  v <- find_one_voter n ;;
  if match v with Some v' => negb (get_eligible v') | None => true end
  then Raise NotEligible
  else
  (* 2) Enforce one-vote-per-NIM *)
  status <- find_one_voterstatus n ;;
  if match status with Some s => get_has_voted s | None => false end
  then Raise AlreadyVoted
  else
  (* 3) Candidate must exist *)
  match objid cid with
  | inr e => Raise e
  | inl o =>
      c <- find_one_candidate o ;;
      if negb (found c) then Raise CandidateNotFound
      else
      (* 4) Record anonymous vote (no NIM stored) *)
      let vote_doc := {| candidate_id := cid |} in
      _ <- create_document_vote vote_doc ;;
      (* 5) Mark voter status as voted with timestamp *)
      _ <- update_one_voterstatus n now ;;
      Ret true
  end.

(* ===================================================================== *)
(** ** Requests served at once *)
(* ===================================================================== *)

(** Each request in flight is the rest of its tree.  The scheduler lets
    request number [i] make its next store access; the store serves one
    access at a time. *)
Definition sched_step (faulty : nat -> bool) {A} (i : nat)
    (s : list (prog A) * world) : list (prog A) * world :=
  let '(ps, w) := s in
  match ps !! i with
  | Some (Call o k) =>
      match exec faulty o w with
      | (inl x, w') => (<[i := k x]> ps, w')
      | (inr e, w') => (<[i := Raise e]> ps, w')
      end
  | _ => s
  end.

Definition interleave (faulty : nat -> bool) {A} (sched : list nat)
    (s : list (prog A) * world) : list (prog A) * world :=
  fold_left (fun s i => sched_step faulty i s) sched s.

(** What a request in flight has answered, if it has. *)
Definition answer {A} (p : prog A) : option (A + error) :=
  match p with
  | Ret a => Some (inl a)
  | Raise e => Some (inr e)
  | Call _ _ => None
  end.

(* ===================================================================== *)
(** ** Python floats (IEEE 754 binary64) *)
(* ===================================================================== *)

Module Float64.

Definition prec : Z := 53.
Definition emax : Z := 1024.

Abbreviation float := spec_float.

(** The float nearest to [a / b] for integers [a] and [b <> 0]: Python's
    [a / b] on [int], and the conversion of a decimal literal. *)
Definition div_int (a b : Z) : float :=
  let '(mz, ez, lz) := SFdiv_core_binary prec emax (Z.abs a) 0 (Z.abs b) 0 in
  binary_round_aux prec emax (xorb (a <? 0) (b <? 0)) mz ez lz.

Definition of_int (n : Z) : float := binary_normalize prec emax n 0 false.

Definition mul (x y : float) : float := SFmul prec emax x y.

Definition zero : float := S754_zero false.
Definition hundred : float := Eval cbv in of_int 100.

(** Nearest integer, ties to even, of [n / d] for [d > 0]. *)
Definition div_half_even (n d : Z) : Z :=
  let q := n / d in
  let r := n mod d in
  match 2 * r ?= d with
  | Lt => q
  | Gt => q + 1
  | Eq => if Z.even q then q else q + 1
  end.

(** The number of hundredths nearest to the exact value of a finite
    positive float of mantissa [m] and exponent [e]. *)
Definition hundredths (m : positive) (e : Z) : Z :=
  match e with
  | Zneg p => div_half_even (100 * Zpos m) (2 ^ Zpos p)
  | _ => 100 * Zpos m * 2 ^ e
  end.

(** [round(x, 2)]: the exact value of [x] is rounded, ties to even, to
    two decimal places, and the float nearest to that decimal is
    returned; zeros, infinities and NaN are returned as they are. *)
Definition round2 (x : float) : float :=
  match x with
  | S754_finite s m e =>
      let n := hundredths m e in
      div_int (if s then - n else n) 100
  | _ => x
  end.


End Float64.

(* ===================================================================== *)
(** ** Tallying *)
(* ===================================================================== *)

Record ResultsItem := {
  ri_candidate_id : string;
  ri_number : Z;
  ri_president_name : string;
  ri_vice_name : string;
  ri_count : Z;
  ri_percentage : Float64.float
}.

Record ResultsResponse := {
  total_votes : Z;
  results : list ResultsItem
}.

(** [{str(c["_id"]): 0 for c in candidates}] *)
Definition zero_counts (candidates : list Candidate) : gmap string Z :=
  fold_left (fun m c => <[Bson.str (_id c) := 0]> m) candidates ∅.

(** The loop over the rows of the aggregation:
    [counts_map[str(cid)] = row["count"]].  A vote holds its
    [candidate_id] as a string, so the [isinstance(cid, ObjectId)] branch
    is not taken and [str(cid)] is [cid]. *)
Definition store_rows (rows : list (string * Z)) (m : gmap string Z) : gmap string Z :=
  fold_left (fun m row => <[fst row := snd row]> m) rows m.

(** [sum(counts_map.values())] *)
Definition sum_values (m : gmap string Z) : Z :=
  map_fold (fun _ v acc => acc + v) 0 m.

Definition percentage_of (count total : Z) : Float64.float :=
  Float64.round2
    (if 0 <? total
     then Float64.mul (Float64.div_int count total) Float64.hundred
     else Float64.zero).

Definition results_item (counts_map : gmap string Z) (total : Z) (c : Candidate) : ResultsItem :=
  let cid := Bson.str (_id c) in
  let count := default 0 (counts_map !! cid) in
  {| ri_candidate_id := cid;
     ri_number := number c;
     ri_president_name := president_name c;
     ri_vice_name := vice_name c;
     ri_count := count;
     ri_percentage := percentage_of count total |}.

(** [results.sort(key=lambda r: r.number)]: a stable sort. *)
Fixpoint insert_by_number (x : ResultsItem) (l : list ResultsItem) : list ResultsItem :=
  match l with
  | [] => [x]
  | y :: r =>
      if ri_number x <=? ri_number y then x :: y :: r
      else y :: insert_by_number x r
  end.

Definition sort_by_number (l : list ResultsItem) : list ResultsItem :=
  fold_right insert_by_number [] l.

(** The part of [get_results] after the two reads. *)
Definition tally (candidates : list Candidate) (rows : list (string * Z)) : ResultsResponse :=
  let counts_map := store_rows rows (zero_counts candidates) in
  let total := sum_values counts_map in
  {| total_votes := total;
     results := sort_by_number (map (results_item counts_map total) candidates) |}.

(** [get_results] *)
Definition get_results : prog ResultsResponse :=
  candidates <- find_candidates ;;
  rows <- aggregate_vote ;;
  Ret (tally candidates rows).

(* ===================================================================== *)
(** ** The three core operations, applied in sequence *)
(* ===================================================================== *)

Inductive request :=
| req_validate (p : ValidateRequest)
| req_vote (now : string) (p : VoteRequest)
| req_results.

(** Serving one request; only the world is kept. *)
Definition serve (faulty : nat -> bool) (r : request) (w : world) : world :=
  match r with
  | req_validate p => snd (run faulty (validate_voter p) w)
  | req_vote now p => snd (run faulty (cast_vote now p) w)
  | req_results => snd (run faulty get_results w)
  end.

Definition serve_all (faulty : nat -> bool) (rs : list request) (w : world) : world :=
  fold_left (fun w r => serve faulty r w) rs w.

(** What the Vote-Status Ledger says of a voter. *)
Definition voted (n : string) (d : DB) : bool :=
  match lookup_status n (voterstatus d) with
  | Some s => get_has_voted s
  | None => false
  end.

(* ===================================================================== *)
(** ** Sample data *)
(* ===================================================================== *)

Module Sample.

Definition id1 : string := "64b7f0a1c2d3e4f5a6b7c8d1".
Definition id2 : string := "64b7f0a1c2d3e4f5a6b7c8d2".
Definition id3 : string := "64b7f0a1c2d3e4f5a6b7c8d3".

Definition oid (s : string) : ObjectId :=
  match Bson.parse s with Some o => o | None => Oid [] end.

Definition cand (i : string) (k : Z) (p v : string) : Candidate :=
  {| _id := oid i; number := k; president_name := p; vice_name := v;
     vision := None; mission := None; photo_url := None |}.

Definition candidates : list Candidate :=
  [cand id1 1 "A" "B"; cand id2 2 "C" "D"].

Definition student (n : string) (e : option bool) : Voter :=
  {| nim := n; name := None; program := None; eligible := e |}.

Definition voters : list Voter :=
  [student "20200001" (Some true); student "20200002" (Some true);
   student "20200003" (Some false); student "20200004" None].

Definition db0 : DB :=
  {| voter := voters; voterstatus := []; candidate := candidates; vote := [] |}.

Definition w0 : world := {| db := db0; trace := [] |}.

Definition ballots (l : list string) : list Vote :=
  map (fun c => {| candidate_id := c |}) l.

Definition with_votes (l : list string) : world :=
  {| db := {| voter := voters; voterstatus := []; candidate := candidates;
              vote := ballots l |};
     trace := [] |}.

End Sample.


(* ===================================================================== *)
(** ** Vocabulary of the statements *)
(* ===================================================================== *)

(** The Eligibility Store knows the voter and does not flag it
    ineligible. *)
Definition eligible_voter (n : string) (d : DB) : bool :=
  match lookup_voter n (voter d) with
  | Some v => get_eligible v
  | None => false
  end.

(** The candidate reference is well formed and names a candidate of the
    registry. *)
Definition resolves (cid : string) (d : DB) : bool :=
  match Bson.parse cid with
  | Some o => found (lookup_candidate o (candidate d))
  | None => false
  end.

(** The database after a vote went through. *)
Definition voted_db (n now cid : string) (d : DB) : DB :=
  set_voterstatus (upsert_voted n now (voterstatus d))
    (append_vote {| candidate_id := cid |} d).

(** The error a vote request meets, the checks being made in the order of
    [cast_vote]; [None] when all pass. *)
Definition rejection (p : VoteRequest) (d : DB) : option error :=
  if negb (eligible_voter (vr_nim p) d) then Some NotEligible
  else if voted (vr_nim p) d then Some AlreadyVoted
  else match Bson.parse (vr_candidate_id p) with
       | None => Some InvalidInput
       | Some o =>
           if found (lookup_candidate o (candidate d)) then None
           else Some CandidateNotFound
       end.

(** The values a stored ballot is made of (its serialization). *)
Definition Vote_values (v : Vote) : list string := [candidate_id v].

(** In a trace, no ballot is written unless the status was written
    before. *)
Fixpoint status_before_ballot (t : list access) : bool :=
  match t with
  | [] => true
  | Write coll_vote :: _ => false
  | Write coll_voterstatus :: _ => true
  | _ :: r => status_before_ballot r
  end.

(** Number of ballots for an identifier. *)
Definition ballots_for (k : string) (votes : list Vote) : Z :=
  Z.of_nat (length (filter (fun v => candidate_id v = k) votes)).

(** Printed identifiers of the registry. *)
Definition candidate_ids (cs : list Candidate) : list string :=
  map (fun c => Bson.str (_id c)) cs.


Definition sum_counts (l : list ResultsItem) : Z :=
  fold_right (fun r acc => ri_count r + acc) 0 l.

(** Accesses made by a vote request that is rejected. *)
Definition rejected_accesses (p : VoteRequest) (d : DB) : list access :=
  if negb (eligible_voter (vr_nim p) d) then [Read coll_voter]
  else if voted (vr_nim p) d then [Read coll_voter; Read coll_voterstatus]
  else match Bson.parse (vr_candidate_id p) with
       | None => [Read coll_voter; Read coll_voterstatus]
       | Some _ => [Read coll_voter; Read coll_voterstatus; Read coll_candidate]
       end.

Definition accepted_accesses : list access :=
  [Read coll_voter; Read coll_voterstatus; Read coll_candidate;
   Write coll_vote; Write coll_voterstatus].

Definition see (w : world) (t : list access) : world :=
  {| db := db w; trace := trace w ++ t |}.

(** A float between zero and [b0 * 2 ^ e0]: plus zero, or a positive
    finite float whose exponent is at most [e0] and whose mantissa, at
    that exponent, does not pass the bound. *)
Definition below (b0 e0 : Z) (f : Float64.float) : Prop :=
  match f with
  | S754_zero false => True
  | S754_finite false m e => e <= e0 /\ Zpos m <= b0 * 2 ^ (e0 - e)
  | _ => False
  end.

(** A shifted mantissa with its round and sticky bits both clear. *)
Definition exact (mrs : shr_record) : Prop :=
  shr_r mrs = false /\ shr_s mrs = false.

(** A truncated mantissa [m] at exponent [e], with the place [l] of the
    exact value above it, that stands for a value between zero and
    [b0 * 2 ^ e0]. *)
Definition under (b0 e0 m e : Z) (l : location) : Prop :=
  0 <= m /\ e <= e0 /\ m <= b0 * 2 ^ (e0 - e) /\
  (l <> loc_Exact -> m < b0 * 2 ^ (e0 - e)).

(* ===================================================================== *)
(** ** The other routes *)
(* ===================================================================== *)

Record CandidatePublic := {
  cp_id : string;
  cp_number : Z;
  cp_president_name : string;
  cp_vice_name : string;
  cp_vision : option string;
  cp_mission : option (list string);
  cp_photo_url : option string
}.

(** [to_public_candidate] *)
Definition to_public_candidate (doc : Candidate) : CandidatePublic :=
  {| cp_id := Bson.str (_id doc);
     cp_number := number doc;
     cp_president_name := president_name doc;
     cp_vice_name := vice_name doc;
     cp_vision := vision doc;
     cp_mission := mission doc;
     cp_photo_url := photo_url doc |}.

(** [sorted(l, key=...)]: a stable sort by an integer key. *)
Fixpoint insert_by {A} (key : A -> Z) (x : A) (l : list A) : list A :=
  match l with
  | [] => [x]
  | y :: r =>
      if key x <=? key y then x :: y :: r
      else y :: insert_by key x r
  end.

Definition sort_by {A} (key : A -> Z) (l : list A) : list A :=
  fold_right (insert_by key) [] l.

(** [list_candidates].  Modelled from the spec: [database.get_documents]
    is not among the sources; the Candidate Registry's [listAll] gives
    every candidate, which is the read [find_candidates]. *)
Definition list_candidates : prog (list CandidatePublic) :=
  docs <- find_candidates ;;
  let docs_sorted := sort_by number docs in
  Ret (map to_public_candidate docs_sorted).

Record SeedRequest := {
  create_candidates : bool;
  create_voters : bool
}.

(** The demo documents of [seed_demo]; the identifiers of the two
    candidates are the ones the driver gives at insertion. *)
Definition demo_candidates (i1 i2 : ObjectId) : list Candidate :=
  [ {| _id := i1; number := 1;
       president_name := "Andi Pratama"; vice_name := "Siti Lestari";
       vision := Some "Transparansi dan inovasi kampus.";
       mission := Some ["Digitalisasi layanan"; "Pemberdayaan UKM"];
       photo_url := Some "https://picsum.photos/seed/cand1/400/400" |};
    {| _id := i2; number := 2;
       president_name := "Budi Santoso"; vice_name := "Rina Kartika";
       vision := Some "Kampus inklusif dan berprestasi.";
       mission := Some ["Akses pendidikan merata"; "Program beasiswa"];
       photo_url := Some "https://picsum.photos/seed/cand2/400/400" |} ].

Definition demo_voters : list Voter :=
  [ {| nim := "20200001"; name := Some "Mahasiswa 1"; program := Some "Teknik";
       eligible := Some true |};
    {| nim := "20200002"; name := Some "Mahasiswa 2"; program := Some "Manajemen";
       eligible := Some true |};
    {| nim := "20200003"; name := Some "Mahasiswa 3"; program := Some "Informatika";
       eligible := Some true |} ].

(** [seed_demo], as a change of the database: each [insert_one] puts its
    document at the end of the collection. *)
Definition seed_demo (i1 i2 : ObjectId) (data : SeedRequest) (d : DB) : DB :=
  let d1 :=
    if create_candidates data && (length (candidate d) =? 0)%nat
    then {| voter := voter d; voterstatus := voterstatus d;
            candidate := candidate d ++ demo_candidates i1 i2; vote := vote d |}
    else d in
  if create_voters data && (length (voter d1) =? 0)%nat
  then {| voter := voter d1 ++ demo_voters; voterstatus := voterstatus d1;
          candidate := candidate d1; vote := vote d1 |}
  else d1.

(** Vote requests served one after the other by a store that answers
    every access: the answers and the world at the end. *)
Fixpoint cast_all (reqs : list (string * VoteRequest)) (w : world)
    : list (bool + error) * world :=
  match reqs with
  | [] => ([], w)
  | (now, p) :: rest =>
      let '(a, w1) := run reliable (cast_vote now p) w in
      let '(l, w2) := cast_all rest w1 in
      (a :: l, w2)
  end.

Definition succeeded (a : bool + error) : bool :=
  match a with inl true => true | _ => false end.

(** An identifier as the driver makes them: twelve bytes. *)
Definition twelve_bytes (o : ObjectId) : Prop :=
  length (binary o) = 12%nat /\ Forall (fun b => (b < 256)%N) (binary o).

(** The ledger and the ballots agree: one status record per voter, each
    of them voted, for an eligible voter, and as many as ballots. *)
Definition ledger_matches (d : DB) : Prop :=
  NoDup (map st_nim (voterstatus d)) /\
  Forall (fun s => has_voted s = Some true /\ eligible_voter (st_nim s) d = true)
         (voterstatus d) /\
  length (vote d) = length (voterstatus d).

(** The same when the store may fail accesses: a voter is marked at most
    once, always as voted, and there are at least as many ballots as
    marked voters. *)
Definition ledger_within (d : DB) : Prop :=
  NoDup (map st_nim (voterstatus d)) /\
  Forall (fun s => has_voted s = Some true) (voterstatus d) /\
  (length (voterstatus d) <= length (vote d))%nat.


(** In the words of the specification, "rounded to 2 decimal places":
    [n] hundredths is the two-decimal number nearest to the exact value
    [m * 2 ^ e] of the float [p], the even one of two that are equally
    near.  Stated with integers only. *)
Definition nearest_hundredths (p : Float64.float) (n : Z) : Prop :=
  match p with
  | S754_zero _ => n = 0
  | S754_finite s m e =>
      let v := if s then - Zpos m else Zpos m in
      match e with
      | Zneg q =>
          Z.abs (2 * (100 * v) - 2 * n * 2 ^ Zpos q) <= 2 ^ Zpos q /\
          (Z.abs (2 * (100 * v) - 2 * n * 2 ^ Zpos q) = 2 ^ Zpos q -> Z.even n = true)
      | _ => n = 100 * v * 2 ^ e
      end
  | _ => False
  end.

(* ===================================================================== *)
(** * Properties *)
(* ===================================================================== *)

(** ** One vote request, the store answering every access *)

Section CastVoteAlone.

Variables (now : string) (p : VoteRequest) (w : world).

Lemma app_trace_2 (a b : access) :
  (trace w ++ [a]) ++ [b] = trace w ++ [a; b].
Proof. by rewrite <- app_assoc. Qed.

Lemma app_trace_3 (a b c : access) :
  ((trace w ++ [a]) ++ [b]) ++ [c] = trace w ++ [a; b; c].
Proof. by rewrite <- !app_assoc. Qed.

(** The outcome of [cast_vote] in closed form. *)
Lemma run_cast_vote :
  run reliable (cast_vote now p) w =
  match rejection p (db w) with
  | Some e => (inr e, see w (rejected_accesses p (db w)))
  | None =>
      (inl true,
       {| db := voted_db (vr_nim p) now (vr_candidate_id p) (db w);
          trace := trace w ++ accepted_accesses |})
  end.
Proof.
  unfold rejection, rejected_accesses, eligible_voter, voted, see, cast_vote, objid.
  cbn [run exec reliable perform access_of db trace].
  destruct (lookup_voter (vr_nim p) (voter (db w))) as [v|] eqn:Hv; cbn.
  2: reflexivity.
  destruct (get_eligible v); cbn; [|reflexivity].
  destruct (lookup_status (vr_nim p) (voterstatus (db w))) as [s|] eqn:Hs; cbn.
  - destruct (get_has_voted s); cbn; [by rewrite app_trace_2|].
    destruct (Bson.parse (vr_candidate_id p)) as [o|]; cbn; [|by rewrite app_trace_2].
    destruct (lookup_candidate o (candidate (db w))); cbn.
    + unfold accepted_accesses, voted_db. by rewrite <- !app_assoc.
    + by rewrite app_trace_3.
  - destruct (Bson.parse (vr_candidate_id p)) as [o|]; cbn; [|by rewrite app_trace_2].
    destruct (lookup_candidate o (candidate (db w))); cbn.
    + unfold accepted_accesses, voted_db. by rewrite <- !app_assoc.
    + by rewrite app_trace_3.
Qed.

Lemma cast_vote_answer :
  fst (run reliable (cast_vote now p) w) =
  match rejection p (db w) with Some e => inr e | None => inl true end.
Proof. rewrite run_cast_vote. by destruct (rejection p (db w)). Qed.

End CastVoteAlone.

(** ** One vote request, the store failing where it likes *)

Lemma run_call (faulty : nat -> bool) {A X} (o : op X) (k : X -> prog A) (w : world) :
  run faulty (Call o k) w =
  if faulty (length (trace w)) then (inr StoreError, see w [access_of o])
  else run faulty (k (fst (perform o (db w))))
         {| db := snd (perform o (db w)); trace := trace w ++ [access_of o] |}.
Proof.
  cbn [run]. unfold exec, see.
  destruct (faulty (length (trace w))); [reflexivity|].
  by destruct (perform o (db w)).
Qed.

(** Splits a goal about [run faulty (cast_vote _ _) _] into the cases of
    the store and of the checks. *)
Ltac cast_vote_cases faulty :=
  repeat first
    [ rewrite run_call
    | progress change (run faulty (Ret ?a) ?w) with (@inl _ error a, w)
    | progress change (run faulty (@Raise ?A ?e) ?w) with (@inr A _ e, w)
    | progress cbn [perform fst snd db trace see negb found]
    | match goal with
      | |- context [faulty ?n] => destruct (faulty n)
      | |- context [lookup_voter ?a ?b] => destruct (lookup_voter a b)
      | |- context [get_eligible ?v] => destruct (get_eligible v)
      | |- context [lookup_status ?a ?b] => destruct (lookup_status a b)
      | |- context [get_has_voted ?v] => destruct (get_has_voted v)
      | |- context [Bson.parse ?a] => destruct (Bson.parse a)
      | |- context [lookup_candidate ?a ?b] => destruct (lookup_candidate a b)
      end ].

Section CastVoteFaulty.

Variables (faulty : nat -> bool) (now : string) (p : VoteRequest) (w : world).

Let r := run faulty (cast_vote now p) w.

(** What a vote request can do to the database: nothing, the ballot
    alone (the status write failed), or the ballot and the status. *)
Lemma cast_vote_effect :
  (db (snd r) = db w /\ fst r <> inl true)
  \/ (rejection p (db w) = None /\ fst r = inr StoreError /\
      db (snd r) = append_vote {| candidate_id := vr_candidate_id p |} (db w))
  \/ (rejection p (db w) = None /\ fst r = inl true /\
      db (snd r) = voted_db (vr_nim p) now (vr_candidate_id p) (db w)).
Proof.
  subst r.
  unfold rejection, eligible_voter, voted, cast_vote, objid.
  cast_vote_cases faulty.
  all: first [ left; split; [reflexivity | discriminate]
             | right; left; repeat split; reflexivity
             | right; right; repeat split; reflexivity ].
Qed.

End CastVoteFaulty.

Lemma rejection_None (p : VoteRequest) (d : DB) :
  rejection p d = None <->
  eligible_voter (vr_nim p) d = true /\ voted (vr_nim p) d = false /\
  resolves (vr_candidate_id p) d = true.
Proof.
  unfold rejection, resolves.
  destruct (eligible_voter (vr_nim p) d), (voted (vr_nim p) d); cbn;
    try (split; [discriminate | intros (? & ? & ?); discriminate]).
  destruct (Bson.parse (vr_candidate_id p)) as [o|]; cbn.
  - destruct (found (lookup_candidate o (candidate d))); cbn.
    + by split.
    + split; [discriminate | intros (? & ? & ?); discriminate].
  - split; [discriminate | intros (? & ? & ?); discriminate].
Qed.

(** ** The order of the checks *)

(** C5 (as amended): the eligibility check and the already-voted check
    come before candidate resolution.  A request whose candidate is
    absent from the registry fails with NotEligible when the voter is
    unknown or ineligible, with AlreadyVoted when the voter has voted,
    and only otherwise with CandidateNotFound (InvalidInput when the
    reference is malformed). *)
Theorem absent_candidate_answer (now : string) (p : VoteRequest) (w : world) :
  resolves (vr_candidate_id p) (db w) = false ->
  fst (run reliable (cast_vote now p) w) =
  inr (if negb (eligible_voter (vr_nim p) (db w)) then NotEligible
       else if voted (vr_nim p) (db w) then AlreadyVoted
       else match Bson.parse (vr_candidate_id p) with
            | Some _ => CandidateNotFound
            | None => InvalidInput
            end).
Proof.
  intros Hres. rewrite cast_vote_answer.
  unfold rejection, resolves in *.
  destruct (eligible_voter (vr_nim p) (db w)); cbn; [|reflexivity].
  destruct (voted (vr_nim p) (db w)); [reflexivity|].
  destruct (Bson.parse (vr_candidate_id p)) as [o|]; [|reflexivity].
  by rewrite Hres.
Qed.

Lemma absent_candidate_answer_witness :
  fst (run reliable
         (cast_vote "t" {| vr_nim := "20200001";
                           vr_candidate_id := "64b7f0a1c2d3e4f5a6b7c8ff" |})
         Sample.w0)
  = inr CandidateNotFound.
Proof.
  exact (absent_candidate_answer "t"
           {| vr_nim := "20200001"; vr_candidate_id := "64b7f0a1c2d3e4f5a6b7c8ff" |}
           Sample.w0 eq_refl).
Defined.

(** C5 as the specification states it fails: the candidate is absent and
    the voter unknown, and the answer is NotEligible. *)
Lemma absent_candidate_unknown_voter :
  let p := {| vr_nim := "99999999"; vr_candidate_id := "64b7f0a1c2d3e4f5a6b7c8ff" |} in
  resolves (vr_candidate_id p) (db Sample.w0) = false /\
  fst (run reliable (cast_vote "t" p) Sample.w0) = inr NotEligible /\
  fst (run reliable (cast_vote "t" p) Sample.w0) <> inr CandidateNotFound.
Proof. repeat split. vm_compute. discriminate. Qed.

(** C6 (as amended): a request whose candidate reference is malformed
    writes to no store.  It is rejected after the reads of the
    Eligibility Store and of the Vote-Status Ledger and before any access
    to the Candidate Registry; the answer is InvalidInput when the voter
    is eligible and has not voted, NotEligible or AlreadyVoted
    otherwise. *)
Theorem malformed_candidate_answer (now : string) (p : VoteRequest) (w : world) :
  Bson.parse (vr_candidate_id p) = None ->
  let r := run reliable (cast_vote now p) w in
  db (snd r) = db w /\
  fst r = inr (if negb (eligible_voter (vr_nim p) (db w)) then NotEligible
               else if voted (vr_nim p) (db w) then AlreadyVoted
               else InvalidInput) /\
  trace (snd r) = trace w ++
    (if negb (eligible_voter (vr_nim p) (db w)) then [Read coll_voter]
     else [Read coll_voter; Read coll_voterstatus]).
Proof.
  intros Hbad r. subst r. rewrite run_cast_vote.
  unfold rejection, rejected_accesses. rewrite Hbad.
  destruct (eligible_voter (vr_nim p) (db w)); cbn; [|done].
  by destruct (voted (vr_nim p) (db w)).
Qed.

Lemma malformed_candidate_answer_witness :
  let r := run reliable
             (cast_vote "t" {| vr_nim := "20200001"; vr_candidate_id := "not-an-id" |})
             Sample.w0 in
  db (snd r) = db Sample.w0 /\
  fst r = inr InvalidInput /\
  trace (snd r) = [Read coll_voter; Read coll_voterstatus].
Proof.
  exact (malformed_candidate_answer "t"
           {| vr_nim := "20200001"; vr_candidate_id := "not-an-id" |}
           Sample.w0 eq_refl).
Defined.

(** C6 as the specification states it fails: the reference is malformed,
    yet two stores have been read when InvalidInput is answered, and for
    an ineligible voter the answer is not InvalidInput. *)
Lemma malformed_candidate_after_reads :
  let bad := "not-an-id" in
  let r1 := run reliable (cast_vote "t" {| vr_nim := "20200001"; vr_candidate_id := bad |})
              Sample.w0 in
  let r2 := run reliable (cast_vote "t" {| vr_nim := "20200003"; vr_candidate_id := bad |})
              Sample.w0 in
  Bson.parse bad = None /\
  fst r1 = inr InvalidInput /\
  trace (snd r1) = [Read coll_voter; Read coll_voterstatus] /\
  trace (snd r1) <> trace Sample.w0 /\
  fst r2 = inr NotEligible /\
  fst r2 <> inr InvalidInput.
Proof. repeat split; vm_compute; discriminate. Qed.

(** ** Failed requests *)

(** C7: a vote request that fails with CandidateNotFound or NotEligible,
    or whose candidate does not resolve, or whose voter is unknown or
    ineligible, fails and leaves the whole database as it was: no ballot
    is created and no status record is changed.  This holds whatever
    accesses the store fails. *)
Theorem failed_vote_changes_nothing
    (faulty : nat -> bool) (now : string) (p : VoteRequest) (w : world) :
  let r := run faulty (cast_vote now p) w in
  fst r = inr CandidateNotFound \/ fst r = inr NotEligible \/
  resolves (vr_candidate_id p) (db w) = false \/
  eligible_voter (vr_nim p) (db w) = false ->
  fst r <> inl true /\ db (snd r) = db w /\
  vote (db (snd r)) = vote (db w) /\
  voterstatus (db (snd r)) = voterstatus (db w).
Proof.
  intros r H. subst r.
  destruct (cast_vote_effect faulty now p w) as [[Hd Hr] | [(Hrej & Hr & Hd) | (Hrej & Hr & Hd)]].
  - rewrite Hd. done.
  - apply rejection_None in Hrej as (He & _ & Hc).
    rewrite Hr in H. destruct H as [H | [H | [H | H]]]; try discriminate; congruence.
  - apply rejection_None in Hrej as (He & _ & Hc).
    rewrite Hr in H. destruct H as [H | [H | [H | H]]]; try discriminate; congruence.
Qed.

Lemma failed_vote_changes_nothing_witness :
  let r := run reliable
             (cast_vote "t" {| vr_nim := "20200003"; vr_candidate_id := Sample.id1 |})
             Sample.w0 in
  fst r <> inl true /\ db (snd r) = db Sample.w0 /\
  vote (db (snd r)) = vote (db Sample.w0) /\
  voterstatus (db (snd r)) = voterstatus (db Sample.w0).
Proof.
  apply (failed_vote_changes_nothing reliable "t"
           {| vr_nim := "20200003"; vr_candidate_id := Sample.id1 |} Sample.w0).
  right; left. reflexivity.
Defined.

(** ** Eligibility by default *)

(** C10: a voter record that is present but has no [eligible] field is
    read as eligible, so such a voter who has not voted yet casts a vote
    for a candidate of the registry; a request whose voter has no record
    at all is rejected with NotEligible. *)
Theorem missing_flag_is_eligible (now : string) (p : VoteRequest) (w : world) (v : Voter) :
  lookup_voter (vr_nim p) (voter (db w)) = Some v ->
  eligible v = None ->
  voted (vr_nim p) (db w) = false ->
  resolves (vr_candidate_id p) (db w) = true ->
  eligible_voter (vr_nim p) (db w) = true /\
  run reliable (cast_vote now p) w =
    (inl true,
     {| db := voted_db (vr_nim p) now (vr_candidate_id p) (db w);
        trace := trace w ++ accepted_accesses |}) /\
  (forall w' : world,
      lookup_voter (vr_nim p) (voter (db w')) = None ->
      run reliable (cast_vote now p) w' = (inr NotEligible, see w' [Read coll_voter])).
Proof.
  intros Hv He Hs Hc.
  assert (Hel : eligible_voter (vr_nim p) (db w) = true).
  { unfold eligible_voter, get_eligible. by rewrite Hv, He. }
  split; [exact Hel|]. split.
  - rewrite run_cast_vote.
    by rewrite (proj2 (rejection_None p (db w)) (conj Hel (conj Hs Hc))).
  - intros w' Hnone. rewrite run_cast_vote.
    unfold rejection, rejected_accesses, eligible_voter. by rewrite Hnone.
Qed.

Lemma missing_flag_is_eligible_witness :
  let p := {| vr_nim := "20200004"; vr_candidate_id := Sample.id2 |} in
  eligible_voter "20200004" (db Sample.w0) = true /\
  run reliable (cast_vote "t" p) Sample.w0 =
    (inl true,
     {| db := voted_db "20200004" "t" Sample.id2 (db Sample.w0);
        trace := accepted_accesses |}) /\
  (forall w' : world,
      lookup_voter "20200004" (voter (db w')) = None ->
      run reliable (cast_vote "t" p) w' = (inr NotEligible, see w' [Read coll_voter])).
Proof.
  exact (missing_flag_is_eligible "t"
           {| vr_nim := "20200004"; vr_candidate_id := Sample.id2 |} Sample.w0
           (Sample.student "20200004" None) eq_refl eq_refl eq_refl eq_refl).
Defined.

(** ** Ballot and status *)

Lemma append_vote_neq (v : Vote) (d : DB) : vote (append_vote v d) <> vote d.
Proof.
  cbn. intros H. apply (f_equal length) in H.
  rewrite length_app in H. cbn in H. lia.
Qed.

(** The accesses of a vote request are an initial part of: voter read,
    status read, candidate read, ballot write, status write. *)
Lemma cast_vote_trace (faulty : nat -> bool) (now : string) (p : VoteRequest) (w : world) :
  exists j : nat,
    trace (snd (run faulty (cast_vote now p) w)) = trace w ++ take j accepted_accesses.
Proof.
  unfold cast_vote, objid, accepted_accesses.
  cast_vote_cases faulty.
  all: cbn [access_of]; rewrite <- ?app_assoc; cbn [app].
  all: first [ by exists 1%nat | by exists 2%nat | by exists 3%nat
             | by exists 4%nat | by exists 5%nat ].
Qed.

(** The order of the two writes: the accesses of a call are an initial
    part of voter read, status read, candidate read, ballot write, status
    write.  When the store fails the ballot write, the call ends in a
    store error with the database as it was. *)
Theorem ballot_precedes_status
    (faulty : nat -> bool) (now : string) (p : VoteRequest) (w : world) :
  let r := run faulty (cast_vote now p) w in
  let k := length (trace w) in
  rejection p (db w) = None ->
  faulty k = false -> faulty (S k) = false -> faulty (S (S k)) = false ->
  faulty (S (S (S k))) = true ->
  fst r = inr StoreError /\
  db (snd r) = db w /\
  voted (vr_nim p) (db (snd r)) = false /\
  trace (snd r) =
    trace w ++ [Read coll_voter; Read coll_voterstatus; Read coll_candidate;
                Write coll_vote] /\
  (forall faulty' : nat -> bool,
      exists j : nat,
        trace (snd (run faulty' (cast_vote now p) w)) =
        trace w ++ take j accepted_accesses).
Proof.
  intros r k Hrej H0 H1 H2 H3. subst r k.
  pose proof (proj1 (rejection_None p (db w)) Hrej) as (He & Hv & Hc).
  assert (Hrun : run faulty (cast_vote now p) w =
                 (inr StoreError,
                  see w [Read coll_voter; Read coll_voterstatus; Read coll_candidate;
                         Write coll_vote])).
  { revert He Hv Hc. unfold eligible_voter, voted, resolves, cast_vote, objid.
    rewrite run_call, H0. cbn [perform fst snd db trace].
    destruct (lookup_voter (vr_nim p) (voter (db w))) as [v|]; [|discriminate].
    intros ->. cbn [negb].
    rewrite run_call. cbn [trace]. rewrite length_app. cbn [length].
    rewrite Nat.add_1_r, H1. cbn [perform fst snd db trace].
    intros ->.
    destruct (Bson.parse (vr_candidate_id p)) as [o|]; [|discriminate].
    intros Hf. rewrite run_call. cbn [trace].
    rewrite !length_app. cbn [length]. rewrite !Nat.add_1_r, H2.
    cbn [perform fst snd db trace]. rewrite Hf. cbn [negb].
    rewrite run_call. cbn [trace].
    rewrite !length_app. cbn [length]. rewrite !Nat.add_1_r, H3.
    unfold see. cbn [db trace access_of]. by rewrite <- !app_assoc. }
  rewrite Hrun. cbn [fst snd see db trace].
  split; [reflexivity|]. split; [reflexivity|]. split; [exact Hv|].
  split; [reflexivity|]. intros faulty'. apply cast_vote_trace.
Qed.

Lemma ballot_precedes_status_witness :
  let p := {| vr_nim := "20200001"; vr_candidate_id := Sample.id1 |} in
  let r := run (fun k => Nat.eqb k 3) (cast_vote "t" p) Sample.w0 in
  fst r = inr StoreError /\
  db (snd r) = db Sample.w0 /\
  voted "20200001" (db (snd r)) = false /\
  trace (snd r) =
    [Read coll_voter; Read coll_voterstatus; Read coll_candidate; Write coll_vote] /\
  (forall faulty' : nat -> bool,
      exists j : nat,
        trace (snd (run faulty' (cast_vote "t" p) Sample.w0)) =
        take j accepted_accesses).
Proof.
  exact (ballot_precedes_status (fun k => Nat.eqb k 3) "t"
           {| vr_nim := "20200001"; vr_candidate_id := Sample.id1 |} Sample.w0
           eq_refl eq_refl eq_refl eq_refl eq_refl).
Defined.

(** A call that succeeds writes the ballot while the status is still
    unwritten; a failed status write leaves the ballot stored and the
    voter unmarked; a failed ballot write leaves the voter unmarked. *)
Lemma ballot_written_before_status :
  let p := {| vr_nim := "20200001"; vr_candidate_id := Sample.id1 |} in
  let ok := run reliable (cast_vote "t" p) Sample.w0 in
  let status_fails := run (fun k => Nat.eqb k 4) (cast_vote "t" p) Sample.w0 in
  let append_fails := run (fun k => Nat.eqb k 3) (cast_vote "t" p) Sample.w0 in
  fst ok = inl true /\
  trace (snd ok) = accepted_accesses /\
  status_before_ballot (trace (snd ok)) = false /\
  fst status_fails = inr StoreError /\
  vote (db (snd status_fails)) = [{| candidate_id := Sample.id1 |}] /\
  voted "20200001" (db (snd status_fails)) = false /\
  fst append_fails = inr StoreError /\
  voted "20200001" (db (snd append_fails)) = false.
Proof. repeat split. Qed.

(** C2 on the code: the ballot is appended at step 4, before the status
    is marked at step 5.  For an eligible voter who has not voted and a
    candidate of the registry, with the store failing the status write of
    the first call: the ballot write is reached with no status written,
    the call ends in a store error with the ballot stored and the voter
    not marked voted, and the voter's next request is accepted, so that
    two ballots of one voter are stored and tallied. *)
Theorem ballot_stored_voter_unmarked :
  let p := {| vr_nim := "20200001"; vr_candidate_id := Sample.id1 |} in
  let status_write_fails := fun k => Nat.eqb k 4 in
  let r1 := run status_write_fails (cast_vote "t" p) Sample.w0 in
  let r2 := run status_write_fails (cast_vote "u" p) (snd r1) in
  rejection p (db Sample.w0) = None /\
  fst r1 = inr StoreError /\
  trace (snd r1) =
    [Read coll_voter; Read coll_voterstatus; Read coll_candidate;
     Write coll_vote; Write coll_voterstatus] /\
  status_before_ballot (trace (snd r1)) = false /\
  vote (db (snd r1)) = [{| candidate_id := Sample.id1 |}] /\
  voterstatus (db (snd r1)) = [] /\
  voted "20200001" (db (snd r1)) = false /\
  fst r2 = inl true /\
  vote (db (snd r2)) =
    [{| candidate_id := Sample.id1 |}; {| candidate_id := Sample.id1 |}] /\
  total_votes (tally (candidate (db (snd r2))) (group_count (vote (db (snd r2))))) = 2.
Proof. repeat split; vm_compute; reflexivity. Qed.

(** ** Anonymity of the ballot *)

Lemma parse_length (s : string) (o : ObjectId) :
  Bson.parse s = Some o -> String.length s = 24%nat.
Proof.
  unfold Bson.parse. destruct (String.length s =? 24)%nat eqn:H; [|discriminate].
  intros _. by apply Nat.eqb_eq.
Qed.

Lemma nim_ok_length (n : string) : nim_ok n = true -> (String.length n <= 20)%nat.
Proof.
  unfold nim_ok. intros H. apply andb_true_iff in H as [_ H]. by apply Nat.leb_le.
Qed.

(** C3: the ballot a vote request stores is made of the candidate
    reference alone.  Two requests that differ only in the voter (and in
    the time of the call) and both succeed leave the same Ballot Store,
    the former one with the record of the candidate reference appended;
    and no value of that record equals a voter identifier of admissible
    length, the reference having 24 characters. *)
Theorem ballot_carries_no_voter
    (faulty1 faulty2 : nat -> bool) (now1 now2 n1 n2 cid : string) (w : world) :
  let r1 := run faulty1 (cast_vote now1 {| vr_nim := n1; vr_candidate_id := cid |}) w in
  let r2 := run faulty2 (cast_vote now2 {| vr_nim := n2; vr_candidate_id := cid |}) w in
  fst r1 = inl true -> fst r2 = inl true ->
  vote (db (snd r1)) = vote (db w) ++ [{| candidate_id := cid |}] /\
  vote (db (snd r2)) = vote (db (snd r1)) /\
  Vote_values {| candidate_id := cid |} = [cid] /\
  (forall n : string, nim_ok n = true -> n ∉ Vote_values {| candidate_id := cid |}).
Proof.
  intros r1 r2 H1 H2. subst r1 r2.
  destruct (cast_vote_effect faulty1 now1 {| vr_nim := n1; vr_candidate_id := cid |} w)
    as [[_ Hr] | [(_ & Hr & _) | (Hrej & _ & Hd1)]]; [done | congruence |].
  destruct (cast_vote_effect faulty2 now2 {| vr_nim := n2; vr_candidate_id := cid |} w)
    as [[_ Hr] | [(_ & Hr & _) | (_ & _ & Hd2)]]; [done | congruence |].
  rewrite Hd1, Hd2. cbn. repeat split.
  intros n Hn Hin. apply list_elem_of_singleton in Hin. subst n.
  apply rejection_None in Hrej as (_ & _ & Hc). unfold resolves in Hc. cbn in Hc.
  destruct (Bson.parse cid) as [o|] eqn:Hp; [|discriminate].
  apply parse_length in Hp. apply nim_ok_length in Hn. cbn in Hn. lia.
Qed.

Lemma ballot_carries_no_voter_witness :
  let r1 := run reliable
              (cast_vote "t1" {| vr_nim := "20200001"; vr_candidate_id := Sample.id1 |})
              Sample.w0 in
  let r2 := run reliable
              (cast_vote "t2" {| vr_nim := "20200002"; vr_candidate_id := Sample.id1 |})
              Sample.w0 in
  vote (db (snd r1)) = vote (db Sample.w0) ++ [{| candidate_id := Sample.id1 |}] /\
  vote (db (snd r2)) = vote (db (snd r1)) /\
  Vote_values {| candidate_id := Sample.id1 |} = [Sample.id1] /\
  (forall n : string, nim_ok n = true -> n ∉ Vote_values {| candidate_id := Sample.id1 |}).
Proof.
  exact (ballot_carries_no_voter reliable reliable "t1" "t2" "20200001" "20200002"
           Sample.id1 Sample.w0 eq_refl eq_refl).
Defined.

(** ** The ledger never goes back *)

Lemma lookup_status_upsert (n n' now : string) (l : list VoterStatus) :
  lookup_status n (upsert_voted n' now l) =
  if String.eqb n' n then Some (voted_doc n' now) else lookup_status n l.
Proof.
  unfold lookup_status.
  induction l as [|d l IH]; cbn.
  - by destruct (String.eqb n' n).
  - destruct (String.eqb (st_nim d) n') eqn:Hd; cbn.
    + apply String.eqb_eq in Hd. rewrite Hd.
      by destruct (String.eqb n' n).
    + destruct (String.eqb (st_nim d) n) eqn:Hn.
      * apply String.eqb_eq in Hn. subst n.
        rewrite String.eqb_sym in Hd. by rewrite Hd.
      * exact IH.
Qed.

(** No store access takes a voter out of the voted state. *)
Lemma perform_keeps_voted {X} (o : op X) (n : string) (d : DB) :
  voted n d = true -> voted n (snd (perform o d)) = true.
Proof.
  destruct o; cbn [perform snd]; try done.
  unfold voted, set_voterstatus. cbn [voterstatus]. rewrite lookup_status_upsert.
  by destruct (String.eqb n0 n).
Qed.

Lemma run_keeps_voted (faulty : nat -> bool) {A} (p : prog A) (n : string) (w : world) :
  voted n (db w) = true -> voted n (db (snd (run faulty p w))) = true.
Proof.
  revert w. induction p as [a | e | X o k IH]; intros w Hw; cbn [run snd]; try done.
  unfold exec. destruct (faulty (length (trace w))); [done|].
  pose proof (perform_keeps_voted o n (db w) Hw) as Hp.
  destruct (perform o (db w)) as [x d]. by apply IH.
Qed.

(** C8: once a voter's has_voted flag is true, no sequence of validate,
    castVote and tally requests brings it back to false, whatever accesses
    the store fails. *)
Theorem voted_is_forever (faulty : nat -> bool) (rs : list request) (n : string) (w : world) :
  voted n (db w) = true ->
  voted n (db (serve_all faulty rs w)) = true.
Proof.
  unfold serve_all. revert w.
  induction rs as [|r rs IH]; intros w Hw; cbn [fold_left]; [done|].
  apply IH. destruct r; cbn [serve]; by apply run_keeps_voted.
Qed.

Lemma voted_is_forever_witness :
  let w1 := serve reliable
              (req_vote "t" {| vr_nim := "20200001"; vr_candidate_id := Sample.id1 |})
              Sample.w0 in
  voted "20200001"
    (db (serve_all reliable
           [req_validate {| vq_nim := "20200001" |};
            req_vote "u" {| vr_nim := "20200001"; vr_candidate_id := Sample.id2 |};
            req_vote "v" {| vr_nim := "20200002"; vr_candidate_id := Sample.id2 |};
            req_results]
           w1)) = true.
Proof.
  exact (voted_is_forever reliable
           [req_validate {| vq_nim := "20200001" |};
            req_vote "u" {| vr_nim := "20200001"; vr_candidate_id := Sample.id2 |};
            req_vote "v" {| vr_nim := "20200002"; vr_candidate_id := Sample.id2 |};
            req_results]
           "20200001"
           (serve reliable
              (req_vote "t" {| vr_nim := "20200001"; vr_candidate_id := Sample.id1 |})
              Sample.w0)
           eq_refl).
Defined.

(** The state machine of a voter: a request moves it from not-voted to
    voted or leaves it where it is. *)
Lemma serve_voted_monotone (faulty : nat -> bool) (r : request) (n : string) (w : world) :
  voted n (db w) = true -> voted n (db (serve faulty r w)) = true.
Proof. intros H. destruct r; cbn [serve]; by apply run_keeps_voted. Qed.

(** The same under any interleaving of any requests in flight. *)
Lemma interleave_keeps_voted (faulty : nat -> bool) {A} (sched : list nat)
    (ps : list (prog A)) (n : string) (w : world) :
  voted n (db w) = true ->
  voted n (db (snd (interleave faulty sched (ps, w)))) = true.
Proof.
  unfold interleave. revert ps w.
  induction sched as [|i sched IH]; intros ps w Hw; cbn [fold_left]; [done|].
  unfold sched_step at 2.
  destruct (ps !! i) as [[a | e | X o k]|]; try by apply IH.
  unfold exec. destruct (faulty (length (trace w))); [by apply IH|].
  pose proof (perform_keeps_voted o n (db w) Hw) as Hp.
  destruct (perform o (db w)) as [x d]. by apply IH.
Qed.

(** ** One vote per voter *)

Lemma voted_after_vote (n now cid : string) (d : DB) :
  voted n (voted_db n now cid d) = true.
Proof.
  unfold voted, voted_db, set_voterstatus. cbn [voterstatus].
  rewrite lookup_status_upsert. by rewrite String.eqb_refl.
Qed.

(** Scenario A: served one after the other, the second request of a
    voter is rejected with AlreadyVoted and adds no ballot. *)
Lemma second_vote_rejected (now1 now2 : string) (p1 p2 : VoteRequest) (w : world) :
  vr_nim p1 = vr_nim p2 ->
  rejection p1 (db w) = None ->
  let w1 := snd (run reliable (cast_vote now1 p1) w) in
  let r2 := run reliable (cast_vote now2 p2) w1 in
  fst r2 = inr AlreadyVoted /\ db (snd r2) = db w1 /\
  vote (db w1) = vote (db w) ++ [{| candidate_id := vr_candidate_id p1 |}].
Proof.
  intros Hn Hrej w1 r2. subst r2 w1.
  rewrite (run_cast_vote now1 p1 w), Hrej. cbn [snd].
  rewrite run_cast_vote. cbn [db].
  apply rejection_None in Hrej as (He & _ & _).
  unfold rejection. rewrite <- Hn.
  replace (eligible_voter (vr_nim p1) (voted_db (vr_nim p1) now1 (vr_candidate_id p1) (db w)))
    with true by (symmetry; exact He).
  rewrite voted_after_vote. cbn. done.
Qed.

(** The alternating schedule of two requests for one voter: every check
    of both is made before either writes, so both win. *)
Lemma both_requests_win (now1 now2 : string) (p1 p2 : VoteRequest) (w : world) :
  rejection p1 (db w) = None ->
  rejection p2 (db w) = None ->
  let s := interleave reliable [0; 1; 0; 1; 0; 1; 0; 1; 0; 1]%nat
             ([cast_vote now1 p1; cast_vote now2 p2], w) in
  map answer (fst s) = [Some (inl true); Some (inl true)] /\
  vote (db (snd s)) =
    vote (db w) ++ [{| candidate_id := vr_candidate_id p1 |};
                    {| candidate_id := vr_candidate_id p2 |}].
Proof.
  intros H1 H2.
  apply rejection_None in H1 as (He1 & Hv1 & Hc1).
  apply rejection_None in H2 as (He2 & Hv2 & Hc2).
  revert He1 Hv1 Hc1 He2 Hv2 Hc2.
  unfold eligible_voter, voted, resolves, cast_vote, objid, interleave.
  destruct (lookup_voter (vr_nim p1) (voter (db w))) as [v1|] eqn:L1; [|discriminate].
  intros E1.
  destruct (lookup_status (vr_nim p1) (voterstatus (db w))) as [s1|] eqn:S1;
    intros V1;
    (destruct (Bson.parse (vr_candidate_id p1)) as [o1|]; [|discriminate]);
    intros C1;
    (destruct (lookup_voter (vr_nim p2) (voter (db w))) as [v2|] eqn:L2; [|discriminate]);
    intros E2;
    (destruct (lookup_status (vr_nim p2) (voterstatus (db w))) as [s2|] eqn:S2);
    intros V2;
    (destruct (Bson.parse (vr_candidate_id p2)) as [o2|]; [|discriminate]);
    intros C2;
    cbn [fold_left sched_step lookup list_lookup exec reliable perform
         db trace insert list_insert fst snd];
    rewrite ?L1, ?L2, ?E1, ?E2; cbn [negb];
    cbn [fold_left sched_step lookup list_lookup exec reliable perform
         db trace insert list_insert fst snd];
    rewrite ?S1, ?S2, ?V1, ?V2;
    cbn [fold_left sched_step lookup list_lookup exec reliable perform
         db trace insert list_insert fst snd];
    rewrite ?C1, ?C2; cbn [negb];
    cbn [fold_left sched_step lookup list_lookup exec reliable perform
         db trace insert list_insert fst snd append_vote set_voterstatus
         vote map answer];
    by rewrite <- app_assoc.
Qed.

(** C1 on the code: two requests of one eligible voter who has not
    voted, for two candidates of the registry, served at once.  Both read
    the ledger before either writes it (the check and the write are two
    accesses), both answer success, and two ballots are stored. *)
Theorem concurrent_votes_both_counted :
  let p1 := {| vr_nim := "20200002"; vr_candidate_id := Sample.id1 |} in
  let p2 := {| vr_nim := "20200002"; vr_candidate_id := Sample.id2 |} in
  let s := interleave reliable [0; 1; 0; 1; 0; 1; 0; 1; 0; 1]%nat
             ([cast_vote "t1" p1; cast_vote "t2" p2], Sample.w0) in
  map answer (fst s) = [Some (inl true); Some (inl true)] /\
  vote (db (snd s)) = Sample.ballots [Sample.id1; Sample.id2] /\
  trace (snd s) =
    [Read coll_voter; Read coll_voter;
     Read coll_voterstatus; Read coll_voterstatus;
     Read coll_candidate; Read coll_candidate;
     Write coll_vote; Write coll_vote;
     Write coll_voterstatus; Write coll_voterstatus] /\
  total_votes (tally (candidate (db (snd s))) (group_count (vote (db (snd s))))) = 2.
Proof. repeat split; vm_compute; reflexivity. Qed.

(** ** Counting ballots *)

Section Counting.

Implicit Types (rows : list (string * Z)) (m : gmap string Z) (k : string).

Lemma bump_keys k rows : NoDup rows.*1 -> NoDup (bump k rows).*1.
Proof.
  induction rows as [|[k' c] rows IH]; cbn; intros Hnd.
  - apply NoDup_singleton.
  - apply NoDup_cons in Hnd as [Hk Hnd].
    destruct (String.eqb k' k) eqn:E; cbn.
    + by apply NoDup_cons.
    + apply NoDup_cons. split; [|by apply IH].
      intros Hin. apply Hk. clear -Hin E.
      induction rows as [|[k2 c2] rows IH]; cbn in *.
      * apply list_elem_of_singleton in Hin. subst.
        by rewrite String.eqb_refl in E.
      * destruct (String.eqb k2 k); cbn in *; [done|].
        apply elem_of_cons in Hin as [->|Hin]; [left|right; by apply IH].
Qed.

Lemma bump_lookup k rows :
  (list_to_map (bump k rows) : gmap string Z) =
  <[k := default 0 ((list_to_map rows : gmap string Z) !! k) + 1]> (list_to_map rows).
Proof.
  induction rows as [|[k' c] rows IH]; cbn [bump list_to_map foldr].
  - by rewrite lookup_empty.
  - destruct (String.eqb k' k) eqn:E; cbn [list_to_map foldr fst snd].
    + apply String.eqb_eq in E. subst k'.
      by rewrite lookup_insert_eq, insert_insert_eq.
    + assert (k' <> k) as Hne by (intros ->; by rewrite String.eqb_refl in E).
      rewrite lookup_insert_ne by done.
      rewrite IH. by apply insert_insert_ne.
Qed.

Lemma group_count_snoc (votes : list Vote) (v : Vote) :
  group_count (votes ++ [v]) = bump (candidate_id v) (group_count votes).
Proof. unfold group_count. by rewrite fold_left_app. Qed.

Lemma ballots_for_snoc k (votes : list Vote) (v : Vote) :
  ballots_for k (votes ++ [v]) =
  ballots_for k votes + (if decide (candidate_id v = k) then 1 else 0).
Proof.
  unfold ballots_for. rewrite filter_app, length_app.
  rewrite Nat2Z.inj_add. f_equal.
  rewrite filter_cons, filter_nil. by destruct (decide (candidate_id v = k)).
Qed.

Lemma ballots_for_nonneg k (votes : list Vote) : 0 <= ballots_for k votes.
Proof. unfold ballots_for. lia. Qed.

(** The rows of the aggregation: distinct keys, and for each identifier
    the number of its ballots. *)
Lemma group_count_spec (votes : list Vote) :
  NoDup (group_count votes).*1 /\
  forall k, default 0 ((list_to_map (group_count votes) : gmap string Z) !! k)
            = ballots_for k votes.
Proof.
  induction votes as [|v votes [IHn IHl]] using rev_ind.
  - split; [apply NoDup_nil_2 | intros k].
    unfold group_count. cbn [fold_left list_to_map foldr]. by rewrite lookup_empty.
  - rewrite group_count_snoc. split; [by apply bump_keys|].
    intros k. rewrite bump_lookup, ballots_for_snoc.
    destruct (decide (candidate_id v = k)) as [->|Hne].
    + rewrite lookup_insert_eq. cbn. by rewrite IHl.
    + rewrite lookup_insert_ne by done. rewrite IHl. lia.
Qed.

Lemma store_rows_union rows m :
  NoDup rows.*1 -> store_rows rows m = list_to_map rows ∪ m.
Proof.
  unfold store_rows. revert m.
  induction rows as [|[k c] rows IH]; intros m Hnd; cbn [fold_left list_to_map foldr].
  - by rewrite (left_id_L ∅ (∪)).
  - cbn in Hnd. apply NoDup_cons in Hnd as [Hk Hnd].
    rewrite IH by done. cbn [fst snd].
    rewrite <- insert_union_l. symmetry. apply insert_union_r.
    by apply not_elem_of_list_to_map_1.
Qed.

Lemma zero_counts_values (cs : list Candidate) k (c : Z) :
  zero_counts cs !! k = Some c -> c = 0.
Proof.
  unfold zero_counts.
  assert (H : forall m, (forall c', m !! k = Some c' -> c' = 0) ->
            fold_left (fun m c => <[Bson.str (_id c) := 0]> m) cs m !! k = Some c -> c = 0).
  { induction cs as [|x cs IH]; intros m Hm; cbn [fold_left]; [apply Hm|].
    apply IH. intros c'.
    destruct (decide (Bson.str (_id x) = k)) as [->|Hne].
    - rewrite lookup_insert_eq. congruence.
    - rewrite lookup_insert_ne by done. apply Hm. }
  apply H. intros c'. by rewrite lookup_empty.
Qed.

(** What [counts_map] holds for an identifier. *)
Lemma counts_map_get (cs : list Candidate) (votes : list Vote) k :
  default 0 (store_rows (group_count votes) (zero_counts cs) !! k) = ballots_for k votes.
Proof.
  destruct (group_count_spec votes) as [Hnd Hl].
  rewrite store_rows_union by done. rewrite <- Hl.
  rewrite lookup_union.
  destruct ((list_to_map (group_count votes) : gmap string Z) !! k) as [c|] eqn:E.
  - by destruct (zero_counts cs !! k).
  - destruct (zero_counts cs !! k) as [c|] eqn:Z0; [|done].
    apply zero_counts_values in Z0. by subst c.
Qed.

Lemma sum_values_insert m k (c : Z) :
  m !! k = None -> sum_values (<[k := c]> m) = sum_values m + c.
Proof.
  intros H. unfold sum_values.
  rewrite map_fold_insert_L; [done | | done].
  intros. lia.
Qed.

Lemma ballots_for_split k (votes : list Vote) :
  Z.of_nat (length votes) =
  ballots_for k votes + Z.of_nat (length (filter (fun v => candidate_id v <> k) votes)).
Proof.
  unfold ballots_for. induction votes as [|v votes IH]; [done|].
  rewrite !filter_cons. destruct (decide (candidate_id v = k)) as [E|E].
  - rewrite decide_False by (intros H; by apply H). cbn [length]. lia.
  - rewrite decide_True by done. cbn [length]. lia.
Qed.

Lemma ballots_for_filter_ne k k' (votes : list Vote) :
  k <> k' ->
  ballots_for k' (filter (fun v => candidate_id v <> k) votes) = ballots_for k' votes.
Proof.
  intros Hne. unfold ballots_for. f_equal.
  induction votes as [|v votes IH]; [done|].
  rewrite (filter_cons (fun v => candidate_id v <> k)).
  destruct (decide (candidate_id v <> k)) as [E|E].
  - rewrite !filter_cons.
    destruct (decide (candidate_id v = k')); cbn [length]; lia.
  - rewrite (filter_cons (fun v => candidate_id v = k') v votes).
    destruct (decide (candidate_id v = k')) as [E'|E']; [|exact IH].
    exfalso. apply E. rewrite E'. intros H. by apply Hne.
Qed.

Lemma ballots_for_filter_eq k (votes : list Vote) :
  ballots_for k (filter (fun v => candidate_id v <> k) votes) = 0.
Proof.
  unfold ballots_for. induction votes as [|v votes IH]; [done|].
  rewrite filter_cons. destruct (decide (candidate_id v <> k)) as [E|E]; [|done].
  rewrite filter_cons, decide_False by done. done.
Qed.

(** A map that holds for every identifier the number of its ballots
    sums to the number of ballots. *)
Lemma sum_values_ballots m :
  forall votes : list Vote,
    (forall k, default 0 (m !! k) = ballots_for k votes) ->
    sum_values m = Z.of_nat (length votes).
Proof.
  induction m as [|k c m Hk IH] using map_ind; intros votes H.
  - unfold sum_values. rewrite map_fold_empty.
    destruct votes as [|v votes]; [done|].
    specialize (H (candidate_id v)). rewrite lookup_empty in H. cbn in H.
    unfold ballots_for in H. rewrite filter_cons, decide_True in H by done.
    cbn [length] in H. lia.
  - rewrite sum_values_insert by done.
    rewrite (IH (filter (fun v => candidate_id v <> k) votes)).
    + pose proof (H k) as Hkk. rewrite lookup_insert_eq in Hkk. cbn in Hkk.
      rewrite (ballots_for_split k votes). lia.
    + intros k'. destruct (decide (k = k')) as [<-|Hne].
      * by rewrite Hk, ballots_for_filter_eq.
      * rewrite ballots_for_filter_ne by done. rewrite <- H.
        by rewrite lookup_insert_ne.
Qed.

Lemma total_is_length (cs : list Candidate) (votes : list Vote) :
  total_votes (tally cs (group_count votes)) = Z.of_nat (length votes).
Proof.
  cbn [tally total_votes]. apply sum_values_ballots.
  intros k. apply counts_map_get.
Qed.

End Counting.

(** ** The returned aggregates *)

Section Aggregates.

Lemma sum_counts_cons (x : ResultsItem) (l : list ResultsItem) :
  sum_counts (x :: l) = ri_count x + sum_counts l.
Proof. reflexivity. Qed.



Lemma insert_by_number_perm (x : ResultsItem) (l : list ResultsItem) :
  insert_by_number x l ≡ₚ x :: l.
Proof.
  induction l as [|y l IH]; cbn [insert_by_number]; [done|].
  destruct (ri_number x <=? ri_number y); [done|].
  rewrite IH. apply Permutation_swap.
Qed.

Lemma sort_by_number_perm (l : list ResultsItem) : sort_by_number l ≡ₚ l.
Proof.
  induction l as [|x l IH]; [done|].
  cbn [sort_by_number fold_right]. fold (sort_by_number l).
  rewrite insert_by_number_perm. by rewrite IH.
Qed.

(** Every returned aggregate is the one of a candidate of the
    registry. *)
Lemma results_elem (cs : list Candidate) (rows : list (string * Z)) (x : ResultsItem) :
  x ∈ results (tally cs rows) ->
  exists c, c ∈ cs /\
    x = results_item (store_rows rows (zero_counts cs))
          (total_votes (tally cs rows)) c.
Proof.
  cbn [tally results total_votes]. rewrite sort_by_number_perm.
  intros H. apply list_elem_of_fmap in H as (c & -> & Hc). by exists c.
Qed.



End Aggregates.

(** ** Rounding stays under a bound of the format *)

Section Digits.

Lemma digits2_size (p : positive) : digits2_pos p = Pos.size p.
Proof. induction p; cbn; by rewrite ?IHp. Qed.

Lemma digits_nonneg (m : Z) : 0 <= Zdigits2 m.
Proof. destruct m; cbn; lia. Qed.

Lemma digits_upper (m : Z) : 0 <= m -> m < 2 ^ Zdigits2 m.
Proof.
  destruct m as [|p|p]; cbn [Zdigits2]; intros H; [done | | lia].
  rewrite digits2_size. pose proof (Pos.size_gt p) as G.
  rewrite <- Pos2Z.inj_pow. lia.
Qed.

Lemma digits_lower (m : Z) : 0 < m -> 2 ^ (Zdigits2 m - 1) <= m.
Proof.
  destruct m as [|p|p]; cbn [Zdigits2]; intros H; try lia.
  rewrite digits2_size. pose proof (Pos.size_le p) as G.
  assert (2 ^ Zpos (Pos.size p) <= 2 * Zpos p) as G'.
  { rewrite <- Pos2Z.inj_pow. lia. }
  replace (Zpos (Pos.size p)) with (Z.succ (Zpos (Pos.size p) - 1)) in G' by lia.
  rewrite Z.pow_succ_r in G' by lia. lia.
Qed.

Lemma digits_le (m n : Z) : 0 <= m -> 0 <= n -> m < 2 ^ n -> Zdigits2 m <= n.
Proof.
  intros Hm Hn Hlt.
  destruct (Z.eq_dec m 0) as [->|Hne]; [done|].
  pose proof (digits_lower m ltac:(lia)) as Hl.
  pose proof (digits_nonneg m) as Hd.
  destruct (Z.le_gt_cases (Zdigits2 m) n) as [|Hgt]; [done|].
  exfalso.
  assert (2 ^ n <= 2 ^ (Zdigits2 m - 1)) by (apply Z.pow_le_mono_r; lia).
  lia.
Qed.

(** A mantissa under [b0 * 2 ^ j] has at most [j] digits more than
    [b0]. *)
Lemma digits_scaled (m b0 j : Z) :
  0 <= m -> 0 < b0 -> 0 <= j -> m <= b0 * 2 ^ j -> Zdigits2 m <= Zdigits2 b0 + j.
Proof.
  intros Hm Hb Hj Hle.
  pose proof (digits_nonneg b0). apply digits_le; [done | lia |].
  rewrite Z.pow_add_r by lia.
  pose proof (digits_upper b0 ltac:(lia)).
  assert (0 < 2 ^ j) by (apply Z.pow_pos_nonneg; lia). nia.
Qed.

Lemma fexp_mono (a b : Z) :
  a <= b -> fexp Float64.prec Float64.emax a <= fexp Float64.prec Float64.emax b.
Proof. unfold fexp, emin, Float64.prec, Float64.emax. lia. Qed.

End Digits.

Section Shifting.

Lemma shr_1_spec (mrs : shr_record) :
  0 <= shr_m mrs ->
  shr_m (shr_1 mrs) = shr_m mrs / 2 /\
  (exact mrs -> shr_m mrs mod 2 = 0 -> exact (shr_1 mrs)).
Proof.
  destruct mrs as [m r s]. unfold exact. cbn [shr_m shr_r shr_s]. intros Hm.
  destruct m as [|[p|p|]|p]; cbn [shr_1 shr_m shr_r shr_s]; try lia.
  - split; [done|]. by intros [-> ->] _.
  - split.
    + rewrite Pos2Z.inj_xI. apply (Z.div_unique _ 2 _ 1); lia.
    + intros _ H. rewrite Pos2Z.inj_xI in H.
      replace (2 * Zpos p + 1) with (1 + Zpos p * 2) in H by lia.
      rewrite Z.mod_add in H by lia. discriminate.
  - split.
    + rewrite Pos2Z.inj_xO. apply (Z.div_unique _ 2 _ 0); lia.
    + by intros [-> ->] _.
  - split; [done|]. intros _ H. discriminate.
Qed.

Lemma shr_1_nonneg (mrs : shr_record) : 0 <= shr_m mrs -> 0 <= shr_m (shr_1 mrs).
Proof.
  intros H. rewrite (proj1 (shr_1_spec mrs H)). by apply Z.div_pos.
Qed.

(** [p] single shifts divide the mantissa by [2 ^ p], and keep an exact
    record exact when the division leaves no remainder. *)
Lemma iter_shr_spec (p : positive) :
  forall mrs : shr_record,
    0 <= shr_m mrs ->
    shr_m (SpecFloat.iter_pos shr_1 p mrs) = shr_m mrs / 2 ^ Zpos p /\
    (exact mrs -> shr_m mrs mod 2 ^ Zpos p = 0 -> exact (SpecFloat.iter_pos shr_1 p mrs)).
Proof.
  induction p as [p IH | p IH |]; intros mrs Hm; cbn [SpecFloat.iter_pos].
  - destruct (shr_1_spec mrs Hm) as [E1 X1].
    pose proof (shr_1_nonneg mrs Hm) as N1.
    destruct (IH (shr_1 mrs) N1) as [E2 X2].
    assert (0 <= shr_m (SpecFloat.iter_pos shr_1 p (shr_1 mrs))) as N2.
    { rewrite E2. apply Z.div_pos; [done | by apply Z.pow_pos_nonneg]. }
    destruct (IH _ N2) as [E3 X3].
    assert (0 < 2 ^ Zpos p) as Hpow by (by apply Z.pow_pos_nonneg).
    assert (2 ^ Zpos p~1 = 2 * 2 ^ Zpos p * 2 ^ Zpos p) as Hsplit.
    { replace (Zpos p~1) with (1 + Zpos p + Zpos p) by lia.
      rewrite !Z.pow_add_r by lia. lia. }
    split.
    + rewrite E3, E2, E1, !Z.div_div by lia. rewrite Hsplit. f_equal. lia.
    + intros Hx Hmod. rewrite Hsplit in Hmod.
      apply Z.mod_divide in Hmod as [q Hq]; [|lia].
      apply X3.
      * apply X2; [apply X1; [done|] |].
        -- rewrite Hq. replace (q * (2 * 2 ^ Zpos p * 2 ^ Zpos p))
             with (q * 2 ^ Zpos p * 2 ^ Zpos p * 2) by lia.
           apply Z.mod_mul. lia.
        -- rewrite E1, Hq.
           replace (q * (2 * 2 ^ Zpos p * 2 ^ Zpos p))
             with (q * 2 ^ Zpos p * 2 ^ Zpos p * 2) by lia.
           rewrite Z.div_mul by lia.
           replace (q * 2 ^ Zpos p * 2 ^ Zpos p) with (q * 2 ^ Zpos p * 2 ^ Zpos p) by lia.
           apply Z.mod_mul. lia.
      * rewrite E2, E1, Hq.
        replace (q * (2 * 2 ^ Zpos p * 2 ^ Zpos p))
          with (q * 2 ^ Zpos p * 2 ^ Zpos p * 2) by lia.
        rewrite Z.div_mul by lia.
        rewrite Z.div_mul by lia.
        apply Z.mod_mul. lia.
  - destruct (IH mrs Hm) as [E2 X2].
    assert (0 < 2 ^ Zpos p) as Hpow by (by apply Z.pow_pos_nonneg).
    assert (0 <= shr_m (SpecFloat.iter_pos shr_1 p mrs)) as N2.
    { rewrite E2. apply Z.div_pos; lia. }
    destruct (IH _ N2) as [E3 X3].
    assert (2 ^ Zpos p~0 = 2 ^ Zpos p * 2 ^ Zpos p) as Hsplit.
    { replace (Zpos p~0) with (Zpos p + Zpos p) by lia.
      by rewrite Z.pow_add_r by lia. }
    split.
    + rewrite E3, E2, Z.div_div by lia. by rewrite Hsplit.
    + intros Hx Hmod. rewrite Hsplit in Hmod.
      apply Z.mod_divide in Hmod as [q Hq]; [|lia].
      apply X3.
      * apply X2; [done|]. rewrite Hq.
        replace (q * (2 ^ Zpos p * 2 ^ Zpos p)) with (q * 2 ^ Zpos p * 2 ^ Zpos p) by lia.
        apply Z.mod_mul. lia.
      * rewrite E2, Hq.
        replace (q * (2 ^ Zpos p * 2 ^ Zpos p)) with (q * 2 ^ Zpos p * 2 ^ Zpos p) by lia.
        rewrite Z.div_mul by lia. apply Z.mod_mul. lia.
  - destruct (shr_1_spec mrs Hm) as [E1 X1]. by rewrite Z.pow_1_r.
Qed.

Lemma loc_of_record_of_loc (m : Z) (l : location) :
  loc_of_shr_record (shr_record_of_loc m l) = l.
Proof. by destruct l as [|[]]. Qed.

Lemma exact_loc (mrs : shr_record) :
  loc_of_shr_record mrs <> loc_Exact -> ~ exact mrs.
Proof.
  unfold exact. destruct mrs as [m [] []]; cbn; intros H [? ?]; congruence.
Qed.

Lemma exact_record_of_loc (m : Z) (l : location) :
  ~ exact (shr_record_of_loc m l) -> l <> loc_Exact.
Proof. intros H ->. apply H. by split. Qed.

End Shifting.

Section RoundingUnder.

Variables b0 e0 : Z.
Hypothesis Hb0 : 0 < b0.
Hypothesis Hfmt : fexp Float64.prec Float64.emax (Zdigits2 b0 + e0) <= e0.
Hypothesis Hmax : e0 <= Float64.emax - Float64.prec.

Lemma shr_m_record_of_loc (m : Z) (l : location) : shr_m (shr_record_of_loc m l) = m.
Proof. by destruct l as [|[]]. Qed.

Lemma shr_fexp_under (m e : Z) (l : location) :
  under b0 e0 m e l ->
  under b0 e0
    (shr_m (fst (shr_fexp Float64.prec Float64.emax m e l)))
    (snd (shr_fexp Float64.prec Float64.emax m e l))
    (loc_of_shr_record (fst (shr_fexp Float64.prec Float64.emax m e l))).
Proof.
  intros (Hm & He & Hle & Hlt). unfold shr_fexp, shr.
  destruct (fexp Float64.prec Float64.emax (Zdigits2 m + e) - e) as [|p|p] eqn:Hk;
    cbn [fst snd]; rewrite ?shr_m_record_of_loc, ?loc_of_record_of_loc;
    try (by repeat split).
  assert (He' : e + Zpos p <= e0).
  { rewrite <- Hk. replace (e + (fexp Float64.prec Float64.emax (Zdigits2 m + e) - e))
      with (fexp Float64.prec Float64.emax (Zdigits2 m + e)) by lia.
    etrans; [|exact Hfmt]. apply fexp_mono.
    pose proof (digits_scaled m b0 (e0 - e) Hm Hb0 ltac:(lia) Hle). lia. }
  assert (Hpow : 0 < 2 ^ Zpos p) by (by apply Z.pow_pos_nonneg).
  assert (Hsplit : b0 * 2 ^ (e0 - e) = 2 ^ Zpos p * (b0 * 2 ^ (e0 - (e + Zpos p)))).
  { replace (e0 - e) with (Zpos p + (e0 - (e + Zpos p))) by lia.
    rewrite Z.pow_add_r by lia. lia. }
  destruct (iter_shr_spec p (shr_record_of_loc m l)) as [Em Ex].
  { by rewrite shr_m_record_of_loc. }
  rewrite shr_m_record_of_loc in Em, Ex. rewrite Em.
  split; [by apply Z.div_pos|]. split; [done|]. split.
  - apply Z.div_le_upper_bound; [done|]. by rewrite <- Hsplit.
  - intros Hloc. apply Z.div_lt_upper_bound; [done|]. rewrite <- Hsplit.
    apply exact_loc in Hloc.
    assert (l = loc_Exact \/ l <> loc_Exact) as [->|Hl]
      by (destruct l; [by left | by right]); [|by apply Hlt].
    destruct (Z.eq_dec (m mod 2 ^ Zpos p) 0) as [Hmod|Hmod].
    + exfalso. apply Hloc. apply Ex; [by split | done].
    + assert (m <> b0 * 2 ^ (e0 - e)); [|lia].
      intros ->. apply Hmod. rewrite Hsplit, Z.mul_comm. apply Z.mod_mul. lia.
Qed.

Lemma round_under (m e : Z) (l : location) :
  under b0 e0 m e l -> under b0 e0 (round_nearest_even m l) e loc_Exact.
Proof.
  intros (Hm & He & Hle & Hlt). unfold round_nearest_even.
  destruct l as [|[]]; try destruct (Z.even m);
    (split; [lia|]); (split; [done|]); (split; [|done]); try done.
  all: assert (m < b0 * 2 ^ (e0 - e)) by (by apply Hlt); lia.
Qed.

(** The rounding of a value between zero and [b0 * 2 ^ e0] is a float
    between zero and [b0 * 2 ^ e0]. *)
Lemma binary_round_aux_below (mx ex : Z) (lx : location) :
  under b0 e0 mx ex lx ->
  below b0 e0 (binary_round_aux Float64.prec Float64.emax false mx ex lx).
Proof.
  intros H1. unfold binary_round_aux.
  apply shr_fexp_under in H1.
  destruct (shr_fexp Float64.prec Float64.emax mx ex lx) as [mrs1 e1].
  cbn [fst snd] in H1. apply round_under in H1. apply shr_fexp_under in H1.
  destruct (shr_fexp Float64.prec Float64.emax
              (round_nearest_even (shr_m mrs1) (loc_of_shr_record mrs1)) e1 loc_Exact)
    as [mrs2 e2].
  cbn [fst snd] in H1. destruct H1 as (Hm & He & Hle & _).
  destruct (shr_m mrs2) as [|m|m]; cbn [below]; [done | | lia].
  rewrite (proj2 (Z.leb_le e2 _)) by lia. cbn [below]. by split.
Qed.

End RoundingUnder.

Section Percentages.

Lemma new_location_exact (b : Z) : new_location b 0 = loc_Exact.
Proof. unfold new_location. by destruct (Z.even b). Qed.

(** The quotient of two integers, rounded, stays under a bound of the
    format that the exact quotient does not pass. *)
Lemma div_int_below (b0 e0 a b : Z) :
  0 < b0 ->
  fexp Float64.prec Float64.emax (Zdigits2 b0 + e0) <= e0 ->
  e0 <= Float64.emax - Float64.prec ->
  e0 <= 0 -> 0 <= Zdigits2 b0 + e0 ->
  0 <= a -> 0 < b -> a * 2 ^ (- e0) <= b0 * b ->
  below b0 e0 (Float64.div_int a b).
Proof.
  intros Hb0 Hfmt Hmax He0 Hd0 Ha Hb Hle.
  unfold Float64.div_int, SFdiv_core_binary.
  rewrite (proj2 (Z.ltb_ge a 0)) by done. rewrite (proj2 (Z.ltb_ge b 0)) by lia.
  rewrite !Z.abs_eq by lia. cbn [xorb].
  rewrite !Z.add_0_r. change (0 - 0) with 0.
  set (e' := Z.min (fexp Float64.prec Float64.emax (Zdigits2 a - Zdigits2 b)) 0).
  assert (He'0 : e' <= 0) by (subst e'; lia).
  assert (He' : e' <= e0).
  { subst e'. etrans; [apply Z.le_min_l|]. etrans; [|exact Hfmt]. apply fexp_mono.
    pose proof (digits_nonneg b) as Hdb.
    destruct (Z.eq_dec a 0) as [->|Hne]; [cbn [Zdigits2]; lia|].
    pose proof (digits_lower a ltac:(lia)) as Hla.
    pose proof (digits_upper b0 ltac:(lia)) as Hub0.
    pose proof (digits_upper b ltac:(lia)) as Hub.
    pose proof (digits_nonneg b0) as Hdb0. pose proof (digits_nonneg a) as Hda.
    assert (Zdigits2 a <> 0) as Hda0.
    { destruct a; cbn; lia. }
    assert (2 ^ (Zdigits2 a - 1 - e0) < 2 ^ (Zdigits2 b0 + Zdigits2 b)) as Hlt.
    { replace (Zdigits2 a - 1 - e0) with ((Zdigits2 a - 1) + (- e0)) by lia.
      rewrite !Z.pow_add_r by lia.
      assert (0 < 2 ^ (- e0)) by (apply Z.pow_pos_nonneg; lia).
      nia. }
    apply Z.pow_lt_mono_r_iff in Hlt; lia. }
  set (m' := match 0 - e' with
             | 0 => a
             | Z.pos _ => Z.shiftl a (0 - e')
             | Z.neg _ => 0
             end).
  assert (Hm' : m' = a * 2 ^ (- e')).
  { subst m'. replace (0 - e') with (- e') by lia.
    destruct (- e') as [|p|p] eqn:E; [lia | | lia].
    by rewrite Z.shiftl_mul_pow2. }
  pose proof (Z_div_mod m' b ltac:(lia)) as Hdm.
  destruct (Z.div_eucl m' b) as [q r]. destruct Hdm as [Hq Hr].
  apply binary_round_aux_below; try done.
  assert (Hbound : m' <= b0 * 2 ^ (e0 - e') * b).
  { rewrite Hm'. replace (- e') with ((- e0) + (e0 - e')) by lia.
    rewrite Z.pow_add_r by lia.
    assert (0 < 2 ^ (e0 - e')) by (apply Z.pow_pos_nonneg; lia). nia. }
  assert (0 <= m').
  { rewrite Hm'. assert (0 < 2 ^ (- e')) by (apply Z.pow_pos_nonneg; lia). nia. }
  repeat split; try done.
  - nia.
  - nia.
  - intros Hloc. assert (r <> 0) by (intros ->; by rewrite new_location_exact in Hloc).
    nia.
Qed.

Lemma hundred_value : Float64.hundred = S754_finite false 7036874417766400 (-46).
Proof. reflexivity. Qed.

Lemma mul_hundred_below (f : Float64.float) :
  below 1 0 f -> below 7036874417766400 (-46) (Float64.mul f Float64.hundred).
Proof.
  rewrite hundred_value. unfold Float64.mul.
  destruct f as [[]|[]| |[] m e]; cbn [below SFmul xorb]; try done.
  intros [He Hm].
  apply binary_round_aux_below; try done.
  repeat split; try done; try lia.
  rewrite Pos2Z.inj_mul.
  replace (-46 - (e + -46)) with (0 - e) by lia. lia.
Qed.

Lemma div_half_even_bound (n d K : Z) :
  0 <= n -> 0 < d -> n <= K * d ->
  0 <= Float64.div_half_even n d <= K.
Proof.
  intros Hn Hd Hle. unfold Float64.div_half_even.
  pose proof (Z.div_mod n d ltac:(lia)) as Hq.
  pose proof (Z.mod_pos_bound n d Hd) as Hr.
  assert (0 <= n / d) by (by apply Z.div_pos).
  destruct (2 * (n mod d) ?= d) eqn:C.
  - apply Z.compare_eq in C. destruct (Z.even (n / d)); nia.
  - nia.
  - apply Z.compare_gt_iff in C. nia.
Qed.




Lemma percentage_of_no_votes (count : Z) : percentage_of count 0 = Float64.zero.
Proof. reflexivity. Qed.

End Percentages.

(** ** Printed identifiers *)

Lemma nibble_roundtrip (n : N) :
  (n < 16)%N ->
  Bson.hex_value (Bson.hex_digit n) = Some n /\ Bson.is_space (Bson.hex_digit n) = false.
Proof.
  intros H. destruct n as [|p]; [by vm_compute|].
  do 4 (destruct p as [p|p|]; try (by vm_compute)); exfalso; lia.
Qed.

Lemma fromhex_hex (bs : list N) :
  Forall (fun b => (b < 256)%N) bs ->
  Bson.fromhex (list_ascii_of_string (Bson.hex bs)) = Some bs.
Proof.
  induction 1 as [|b bs Hb _ IH]; [reflexivity|].
  cbn [Bson.hex list_ascii_of_string Bson.fromhex].
  assert (b / 16 < 16)%N as Hhi by (apply N.Div0.div_lt_upper_bound; lia).
  assert (b mod 16 < 16)%N as Hlo by (apply N.mod_lt; lia).
  destruct (nibble_roundtrip _ Hhi) as [-> ->].
  destruct (nibble_roundtrip _ Hlo) as [-> _].
  rewrite IH. f_equal. f_equal.
  pose proof (N.div_mod b 16 ltac:(lia)). lia.
Qed.

Lemma length_hex (bs : list N) : String.length (Bson.hex bs) = (2 * length bs)%nat.
Proof. induction bs as [|b bs IH]; cbn [Bson.hex String.length length]; lia. Qed.

Lemma parse_printed_id (o : ObjectId) :
  twelve_bytes o -> Bson.parse (Bson.str o) = Some o.
Proof.
  intros [Hlen Hb]. unfold Bson.parse, Bson.str.
  rewrite length_hex, Hlen. cbn [Nat.mul Nat.add Nat.eqb].
  rewrite (fromhex_hex _ Hb). by destruct o.
Qed.

Lemma lookup_candidate_found (c : Candidate) (cs : list Candidate) :
  c ∈ cs -> found (lookup_candidate (_id c) cs) = true.
Proof.
  intros Hin. unfold lookup_candidate.
  destruct (find (fun d => bool_decide (_id d = _id c)) cs) eqn:E; [reflexivity|].
  apply list_elem_of_In in Hin.
  pose proof (find_none _ _ E c Hin) as F. cbn in F.
  by rewrite bool_decide_eq_true_2 in F.
Qed.

Lemma printed_id_resolves (c : Candidate) (d : DB) :
  c ∈ candidate d -> twelve_bytes (_id c) -> resolves (Bson.str (_id c)) d = true.
Proof.
  intros Hin Htw. unfold resolves. rewrite parse_printed_id by done.
  by apply lookup_candidate_found.
Qed.



(** ** The tally *)

Lemma run_get_results (w : world) :
  run reliable get_results w =
  (inl (tally (candidate (db w)) (group_count (vote (db w)))),
   see w [Read coll_candidate; Read coll_vote]).
Proof.
  unfold get_results. rewrite !run_call. unfold reliable, see.
  cbn [run perform fst snd db trace access_of]. by rewrite <- app_assoc.
Qed.

Lemma ballots_for_le (k : string) (votes : list Vote) :
  ballots_for k votes <= Z.of_nat (length votes).
Proof. rewrite (ballots_for_split k votes). lia. Qed.

(** The aggregate returned for a candidate: its count is the number of
    ballots that carry its printed identifier, its percentage is computed
    from that count and the total alone. *)
Lemma results_item_spec (w : world) (x : ResultsItem) :
  x ∈ results (tally (candidate (db w)) (group_count (vote (db w)))) ->
  ri_count x = ballots_for (ri_candidate_id x) (vote (db w)) /\
  ri_percentage x = percentage_of (ri_count x) (Z.of_nat (length (vote (db w)))).
Proof.
  intros H. apply results_elem in H as (c & _ & ->).
  rewrite total_is_length. cbn [results_item ri_count ri_candidate_id ri_percentage].
  by rewrite counts_map_get.
Qed.






(** ** Rounding to two decimal places *)

Lemma div_half_even_nearest (n d : Z) :
  0 < d ->
  Z.abs (2 * n - 2 * Float64.div_half_even n d * d) <= d /\
  (Z.abs (2 * n - 2 * Float64.div_half_even n d * d) = d ->
   Z.even (Float64.div_half_even n d) = true).
Proof.
  intros Hd. unfold Float64.div_half_even.
  pose proof (Z.div_mod n d ltac:(lia)) as Hq.
  pose proof (Z.mod_pos_bound n d Hd) as Hr.
  set (q := n / d) in *. set (r := n mod d) in *.
  assert (E0 : 2 * n - 2 * q * d = 2 * r) by (rewrite Hq at 1; ring).
  assert (E1 : 2 * n - 2 * (q + 1) * d = 2 * r - 2 * d) by (rewrite Hq at 1; ring).
  destruct (Z.compare_spec (2 * r) d) as [C|C|C].
  - destruct (Z.even q) eqn:E.
    + rewrite E0. split; [lia | done].
    + rewrite E1. split; [lia|]. intros _.
      rewrite Z.add_1_r, Z.even_succ, <- Z.negb_even. by rewrite E.
  - rewrite E0. split; [lia | intros H; exfalso; lia].
  - rewrite E1. split; [lia | intros H; exfalso; lia].
Qed.

(** What [round(x, 2)] returns for a float between zero and one hundred:
    the float nearest to [n / 100], for the number [n] of hundredths
    nearest to the exact value of [x]. *)
Lemma round2_nearest (p : Float64.float) :
  below 7036874417766400 (-46) p ->
  exists n : Z,
    nearest_hundredths p n /\ 0 <= n <= 10000 /\
    Float64.round2 p = Float64.div_int n 100.
Proof.
  destruct p as [[|]|[|]| |[|] m e]; cbn [below]; try (intros []; fail).
  - intros _. exists 0. cbn [nearest_hundredths Float64.round2]. repeat split; try lia.
  - intros [He Hm]. destruct e as [|q|q]; try lia.
    exists (Float64.hundredths m (Zneg q)).
    assert (0 < 2 ^ Zpos q) as Hpow by (by apply Z.pow_pos_nonneg).
    assert (H100 : 100 * Zpos m <= 10000 * 2 ^ Zpos q).
    { assert (2 ^ Zpos q = 70368744177664 * 2 ^ (-46 - Zneg q)) as ->; [|lia].
      change 70368744177664 with (2 ^ 46).
      rewrite <- Z.pow_add_r by lia. f_equal. lia. }
    cbn [nearest_hundredths Float64.round2 Float64.hundredths].
    split; [apply div_half_even_nearest; lia|].
    split; [apply div_half_even_bound; lia | reflexivity].
Qed.

(** C9: every returned aggregate carries the number of ballots of its
    candidate and a percentage computed from that count and the total
    alone, with no renormalization: 0 when the total is 0, and otherwise
    the float of a two-decimal number [n / 100], where [n] hundredths is
    the decimal nearest (ties to even) to the exact value of the float
    [count / total * 100.0].  With 3 ballots for candidate 1 and 1 for
    candidate 2 the tally is counts 3 and 1, percentages 75.00 and 25.00,
    total 4; 1 and 2 ballots of 3 give 33.33 and 66.67; 1 and 1 ballots of
    3 give 33.33 twice; 1 and 31 ballots of 32 give 3.12 and 96.88. *)
Theorem percentage_formula :
  forall w : world,
    let r := tally (candidate (db w)) (group_count (vote (db w))) in
    fst (run reliable get_results w) = inl r /\
    Forall (fun x =>
              ri_count x = ballots_for (ri_candidate_id x) (vote (db w)) /\
              (total_votes r = 0 -> ri_percentage x = Float64.zero) /\
              (0 < total_votes r ->
               exists n : Z,
                 nearest_hundredths
                   (Float64.mul (Float64.div_int (ri_count x) (total_votes r))
                      Float64.hundred) n /\
                 0 <= n <= 10000 /\
                 ri_percentage x = Float64.div_int n 100))
           (results r) /\
    fst (run reliable get_results
           (Sample.with_votes [Sample.id1; Sample.id1; Sample.id2; Sample.id1])) =
    inl {| total_votes := 4;
           results :=
             [ {| ri_candidate_id := Sample.id1; ri_number := 1;
                  ri_president_name := "A"; ri_vice_name := "B";
                  ri_count := 3; ri_percentage := Float64.of_int 75 |};
               {| ri_candidate_id := Sample.id2; ri_number := 2;
                  ri_president_name := "C"; ri_vice_name := "D";
                  ri_count := 1; ri_percentage := Float64.of_int 25 |} ] |} /\
    map (fun x => (ri_count x, ri_percentage x))
        (results (tally Sample.candidates
                    (group_count (Sample.ballots [Sample.id2; Sample.id1; Sample.id2]))))
    = [(1, Float64.div_int 3333 100); (2, Float64.div_int 6667 100)] /\
    map (fun x => (ri_count x, ri_percentage x))
        (results (tally Sample.candidates
                    (group_count (Sample.ballots [Sample.id1; Sample.id3; Sample.id2]))))
    = [(1, Float64.div_int 3333 100); (1, Float64.div_int 3333 100)] /\
    map (fun x => (ri_count x, ri_percentage x))
        (results (tally Sample.candidates
                    (group_count (Sample.ballots (Sample.id1 :: replicate 31 Sample.id2)))))
    = [(1, Float64.div_int 312 100); (31, Float64.div_int 9688 100)].
Proof.
  intros w r. split; [by rewrite run_get_results|]. split; [|repeat split; vm_compute; reflexivity].
  apply Forall_forall. intros x Hx.
  pose proof (total_is_length (candidate (db w)) (vote (db w))) as Htot.
  fold r in Htot.
  apply results_item_spec in Hx as [Hc Hp]. split; [exact Hc|].
  rewrite Hp, <- Htot. split.
  - intros ->. apply percentage_of_no_votes.
  - intros Hpos. unfold percentage_of. rewrite (proj2 (Z.ltb_lt 0 _) Hpos).
    apply round2_nearest, mul_hundred_below, div_int_below; try done.
    + rewrite Hc. apply ballots_for_nonneg.
    + rewrite Z.pow_0_r, Hc, Htot. pose proof (ballots_for_le (ri_candidate_id x) (vote (db w))).
      lia.
Qed.

(* ===================================================================== *)
(** * Further properties of the routes *)
(* ===================================================================== *)

(** ** Validation *)

(** The answer of [validate_voter] in closed form. *)
Lemma run_validate_voter (p : ValidateRequest) (w : world) :
  run reliable (validate_voter p) w =
  (inl {| vp_nim := vq_nim p;
          vp_eligible := eligible_voter (vq_nim p) (db w);
          vp_has_voted :=
            found (lookup_voter (vq_nim p) (voter (db w))) && voted (vq_nim p) (db w) |},
   see w [Read coll_voter; Read coll_voterstatus]).
Proof.
  unfold validate_voter. rewrite !run_call. unfold reliable, see, eligible_voter, voted.
  cbn [perform fst snd db trace access_of]. rewrite <- app_assoc. cbn [app].
  destruct (lookup_voter (vq_nim p) (voter (db w))) as [v|]; cbn [found negb andb run];
    reflexivity.
Qed.

Lemma validate_voter_db (faulty : nat -> bool) (p : ValidateRequest) (w : world) :
  db (snd (run faulty (validate_voter p) w)) = db w.
Proof.
  unfold validate_voter. rewrite run_call.
  destruct (faulty (length (trace w))); [reflexivity|].
  rewrite run_call. cbn [trace perform fst snd db].
  destruct (faulty _); [reflexivity|].
  cbn [perform fst snd db]. by destruct (negb _).
Qed.

(** [validate_voter] writes nothing: called any number of times, and
    whatever accesses the store fails, it leaves the database as it
    was. *)
Theorem validate_changes_nothing (faulty : nat -> bool) (ps : list ValidateRequest)
    (w : world) :
  db (fold_left (fun w p => snd (run faulty (validate_voter p) w)) ps w) = db w.
Proof.
  revert w. induction ps as [|p ps IH]; intros w; cbn [fold_left]; [reflexivity|].
  by rewrite IH, validate_voter_db.
Qed.

(** An identifier the Eligibility Store does not know is reported
    ineligible and not voted, even when the ledger holds a voted record
    for it. *)
Theorem validate_unknown_voter (p : ValidateRequest) (w : world) :
  lookup_voter (vq_nim p) (voter (db w)) = None ->
  fst (run reliable (validate_voter p) w) =
  inl {| vp_nim := vq_nim p; vp_eligible := false; vp_has_voted := false |}.
Proof.
  intros H. rewrite run_validate_voter. unfold eligible_voter. by rewrite H.
Qed.

Lemma validate_unknown_voter_witness :
  let w := {| db := {| voter := []; candidate := [];
                       voterstatus := [voted_doc "20209999" "t"]; vote := [] |};
              trace := [] |} in
  voted "20209999" (db w) = true /\
  fst (run reliable (validate_voter {| vq_nim := "20209999" |}) w) =
  inl {| vp_nim := "20209999"; vp_eligible := false; vp_has_voted := false |}.
Proof.
  split; [reflexivity|].
  exact (validate_unknown_voter {| vq_nim := "20209999" |}
           {| db := {| voter := []; candidate := [];
                       voterstatus := [voted_doc "20209999" "t"]; vote := [] |};
              trace := [] |} eq_refl).
Defined.

(** What [validate_voter] reports decides the first two checks of
    [cast_vote] on the same state: not eligible gives NotEligible,
    eligible and voted gives AlreadyVoted, and otherwise the answer
    depends on the candidate alone. *)
Theorem validate_predicts_vote (now n cid : string) (w : world) (a : ValidateResponse) :
  fst (run reliable (validate_voter {| vq_nim := n |}) w) = inl a ->
  fst (run reliable (cast_vote now {| vr_nim := n; vr_candidate_id := cid |}) w) =
  if negb (vp_eligible a) then inr NotEligible
  else if vp_has_voted a then inr AlreadyVoted
  else match Bson.parse cid with
       | None => inr InvalidInput
       | Some o =>
           if found (lookup_candidate o (candidate (db w))) then inl true
           else inr CandidateNotFound
       end.
Proof.
  rewrite run_validate_voter, cast_vote_answer. cbn [fst vq_nim].
  intros [= <-]. cbn [vp_eligible vp_has_voted].
  unfold rejection, eligible_voter. cbn [vr_nim vr_candidate_id].
  destruct (lookup_voter n (voter (db w))) as [v|]; cbn [found andb negb]; [|reflexivity].
  destruct (get_eligible v); cbn [negb]; [|reflexivity].
  destruct (voted n (db w)); [reflexivity|].
  destruct (Bson.parse cid) as [o|]; [|reflexivity].
  by destruct (found (lookup_candidate o (candidate (db w)))).
Qed.

Lemma validate_predicts_vote_witness :
  fst (run reliable
         (cast_vote "t" {| vr_nim := "20200003"; vr_candidate_id := Sample.id1 |})
         Sample.w0) = inr NotEligible.
Proof.
  exact (validate_predicts_vote "t" "20200003" Sample.id1 Sample.w0
           {| vp_nim := "20200003"; vp_eligible := false; vp_has_voted := false |}
           eq_refl).
Defined.

(** ** More on one vote request *)

Lemma cast_vote_success (now : string) (p : VoteRequest) (w : world) :
  fst (run reliable (cast_vote now p) w) = inl true -> rejection p (db w) = None.
Proof.
  rewrite cast_vote_answer. by destruct (rejection p (db w)).
Qed.

(** With a store that answers, a vote goes through exactly when the voter
    is eligible, has not voted, and the candidate reference resolves. *)
Theorem vote_succeeds_iff (now : string) (p : VoteRequest) (w : world) :
  fst (run reliable (cast_vote now p) w) = inl true <->
  eligible_voter (vr_nim p) (db w) = true /\
  voted (vr_nim p) (db w) = false /\
  resolves (vr_candidate_id p) (db w) = true.
Proof.
  rewrite cast_vote_answer, <- rejection_None.
  destruct (rejection p (db w)); split; congruence.
Qed.

(** A vote that went through is seen by validation: the voter is then
    reported eligible and voted. *)
Theorem validate_after_vote (now : string) (p : VoteRequest) (w : world) :
  fst (run reliable (cast_vote now p) w) = inl true ->
  fst (run reliable (validate_voter {| vq_nim := vr_nim p |})
         (snd (run reliable (cast_vote now p) w))) =
  inl {| vp_nim := vr_nim p; vp_eligible := true; vp_has_voted := true |}.
Proof.
  intros H. apply cast_vote_success, rejection_None in H as (He & Hv & Hc).
  rewrite run_validate_voter. cbn [fst vq_nim].
  rewrite run_cast_vote, (proj2 (rejection_None p (db w)) (conj He (conj Hv Hc))).
  cbn [snd db]. rewrite voted_after_vote.
  unfold eligible_voter in *. cbn [voted_db set_voterstatus append_vote voter].
  destruct (lookup_voter (vr_nim p) (voter (db w))); [|discriminate].
  by rewrite He.
Qed.

Lemma validate_after_vote_witness :
  fst (run reliable (validate_voter {| vq_nim := "20200001" |})
         (snd (run reliable
                 (cast_vote "t" {| vr_nim := "20200001"; vr_candidate_id := Sample.id1 |})
                 Sample.w0))) =
  inl {| vp_nim := "20200001"; vp_eligible := true; vp_has_voted := true |}.
Proof.
  exact (validate_after_vote "t"
           {| vr_nim := "20200001"; vr_candidate_id := Sample.id1 |} Sample.w0 eq_refl).
Defined.

(** A vote request that the route itself rejects, with any HTTP error,
    leaves the database as it was, whatever accesses the store fails. *)
Theorem rejected_vote_changes_nothing
    (faulty : nat -> bool) (now : string) (p : VoteRequest) (w : world)
    (code : Z) (detail : string) :
  fst (run faulty (cast_vote now p) w) = inr (HTTPException code detail) ->
  db (snd (run faulty (cast_vote now p) w)) = db w.
Proof.
  intros H.
  destruct (cast_vote_effect faulty now p w) as [[Hd _] | [(_ & Hr & _) | (_ & Hr & _)]];
    [exact Hd | congruence | congruence].
Qed.

Lemma rejected_vote_changes_nothing_witness :
  let w1 := snd (run reliable
                   (cast_vote "t" {| vr_nim := "20200001"; vr_candidate_id := Sample.id1 |})
                   Sample.w0) in
  db (snd (run reliable
             (cast_vote "u" {| vr_nim := "20200001"; vr_candidate_id := Sample.id2 |}) w1))
  = db w1.
Proof.
  exact (rejected_vote_changes_nothing reliable "u"
           {| vr_nim := "20200001"; vr_candidate_id := Sample.id2 |}
           (snd (run reliable
                   (cast_vote "t" {| vr_nim := "20200001"; vr_candidate_id := Sample.id1 |})
                   Sample.w0))
           409 "This NIM has already voted" eq_refl).
Defined.

(** A vote request never touches the Eligibility Store or the Candidate
    Registry, never removes or changes a stored ballot (it adds at most
    its own, at the end), and never changes the status record of another
    voter; this holds whatever accesses the store fails. *)
Theorem vote_touches_only_its_own
    (faulty : nat -> bool) (now : string) (p : VoteRequest) (w : world) :
  let d' := db (snd (run faulty (cast_vote now p) w)) in
  voter d' = voter (db w) /\
  candidate d' = candidate (db w) /\
  (vote d' = vote (db w) \/
   vote d' = vote (db w) ++ [{| candidate_id := vr_candidate_id p |}]) /\
  (forall n : string,
      n <> vr_nim p ->
      lookup_status n (voterstatus d') = lookup_status n (voterstatus (db w))).
Proof.
  intros d'. subst d'.
  destruct (cast_vote_effect faulty now p w) as [[Hd _] | [(_ & _ & Hd) | (_ & _ & Hd)]];
    rewrite Hd; cbn [voted_db set_voterstatus append_vote voter candidate vote voterstatus].
  - repeat split; by left.
  - repeat split; by right.
  - repeat split; [by right|]. intros n Hn. rewrite lookup_status_upsert.
    destruct (String.eqb (vr_nim p) n) eqn:E; [|reflexivity].
    apply String.eqb_eq in E. congruence.
Qed.

Lemma second_vote_rejected_witness :
  let p1 := {| vr_nim := "20200001"; vr_candidate_id := Sample.id1 |} in
  let p2 := {| vr_nim := "20200001"; vr_candidate_id := Sample.id2 |} in
  let w1 := snd (run reliable (cast_vote "t" p1) Sample.w0) in
  let r2 := run reliable (cast_vote "u" p2) w1 in
  fst r2 = inr AlreadyVoted /\ db (snd r2) = db w1 /\
  vote (db w1) = vote (db Sample.w0) ++ [{| candidate_id := Sample.id1 |}].
Proof.
  exact (second_vote_rejected "t" "u"
           {| vr_nim := "20200001"; vr_candidate_id := Sample.id1 |}
           {| vr_nim := "20200001"; vr_candidate_id := Sample.id2 |}
           Sample.w0 eq_refl eq_refl).
Defined.

(** ** Requests in sequence *)

Lemma get_results_db (faulty : nat -> bool) (w : world) :
  db (snd (run faulty get_results w)) = db w.
Proof.
  unfold get_results. rewrite run_call.
  destruct (faulty (length (trace w))); [reflexivity|].
  rewrite run_call. cbn [trace perform fst snd db].
  by destruct (faulty _).
Qed.

Lemma cast_all_cons (now : string) (p : VoteRequest) (rest : list (string * VoteRequest))
    (w : world) :
  cast_all ((now, p) :: rest) w =
  (fst (run reliable (cast_vote now p) w)
     :: fst (cast_all rest (snd (run reliable (cast_vote now p) w))),
   snd (cast_all rest (snd (run reliable (cast_vote now p) w)))).
Proof.
  cbn [cast_all]. destruct (run reliable (cast_vote now p) w) as [a w1]. cbn [fst snd].
  by destruct (cast_all rest w1).
Qed.

Lemma cast_all_ballots (reqs : list (string * VoteRequest)) (w : world) :
  length (vote (db (snd (cast_all reqs w)))) =
  (length (vote (db w)) +
   length (filter (fun a => succeeded a = true) (fst (cast_all reqs w))))%nat.
Proof.
  revert w. induction reqs as [|[now p] rest IH]; intros w.
  - cbn. lia.
  - rewrite cast_all_cons. cbn [fst snd]. rewrite IH, filter_cons.
    rewrite run_cast_vote. destruct (rejection p (db w)) as [e|]; cbn [fst snd db see succeeded].
    + rewrite decide_False by discriminate. lia.
    + rewrite decide_True by reflexivity.
      cbn [voted_db set_voterstatus append_vote vote length].
      rewrite length_app. cbn [length]. lia.
Qed.

(** After any sequence of vote requests served one after the other by a
    store that answers, the total of the tally has grown by the number of
    requests that answered success. *)
Theorem tally_counts_successes (reqs : list (string * VoteRequest)) (w : world) :
  let answers := fst (cast_all reqs w) in
  let w' := snd (cast_all reqs w) in
  total_votes (tally (candidate (db w')) (group_count (vote (db w')))) =
  total_votes (tally (candidate (db w)) (group_count (vote (db w)))) +
  Z.of_nat (length (filter (fun a => succeeded a = true) answers)).
Proof.
  intros answers w'. subst answers w'.
  rewrite !total_is_length, cast_all_ballots. lia.
Qed.

Lemma lookup_status_none_notin (n : string) (l : list VoterStatus) :
  lookup_status n l = None -> n ∉ map st_nim l.
Proof.
  unfold lookup_status. intros H Hin.
  apply list_elem_of_fmap in Hin as (s & -> & Hs).
  apply list_elem_of_In in Hs.
  pose proof (find_none _ _ H s Hs) as E. cbn in E.
  by rewrite String.eqb_refl in E.
Qed.

Lemma upsert_voted_new (n now : string) (l : list VoterStatus) :
  lookup_status n l = None -> upsert_voted n now l = l ++ [voted_doc n now].
Proof.
  unfold lookup_status. induction l as [|d l IH]; cbn [find upsert_voted app]; [done|].
  destruct (String.eqb (st_nim d) n); [discriminate|].
  intros H. by rewrite IH.
Qed.

Lemma unvoted_has_no_record (n : string) (d : DB) :
  Forall (fun s => has_voted s = Some true /\ eligible_voter (st_nim s) d = true)
         (voterstatus d) ->
  voted n d = false -> lookup_status n (voterstatus d) = None.
Proof.
  intros Hall. unfold voted.
  destruct (lookup_status n (voterstatus d)) as [s|] eqn:E; [|done].
  unfold lookup_status in E. apply find_some in E as [Hin _].
  apply list_elem_of_In in Hin.
  rewrite Forall_forall in Hall. destruct (Hall s Hin) as [Hv _].
  unfold get_has_voted. by rewrite Hv.
Qed.

Lemma vote_keeps_ledger (now : string) (p : VoteRequest) (w : world) :
  ledger_matches (db w) ->
  ledger_matches (db (snd (run reliable (cast_vote now p) w))).
Proof.
  intros (Hnd & Hall & Hlen). rewrite run_cast_vote.
  destruct (rejection p (db w)) as [e|] eqn:Hrej; cbn [snd see db]; [done|].
  apply rejection_None in Hrej as (He & Hv & _).
  pose proof (unvoted_has_no_record _ _ Hall Hv) as Hnone.
  unfold ledger_matches, voted_db, set_voterstatus, append_vote.
  cbn [voterstatus vote voter candidate].
  rewrite (upsert_voted_new _ _ _ Hnone).
  split; [|split].
  - rewrite map_app. cbn [map]. apply NoDup_app. split; [done|]. split.
    + intros x Hx Hx'. apply list_elem_of_singleton in Hx'. subst x.
      by apply (lookup_status_none_notin _ _ Hnone).
    + apply NoDup_singleton.
  - apply Forall_app. split.
    + eapply Forall_impl; [exact Hall|]. intros s [? ?]. by split.
    + apply Forall_singleton. split; [done|]. exact He.
  - rewrite !length_app. cbn [length]. lia.
Qed.

(** Served one after the other by a store that answers, the requests keep
    the ledger and the Ballot Store matched: there is one status record
    per voter, every record is a voted one and is that of an eligible
    voter, and there are as many ballots as records.  In particular no
    voter has more than one ballot counted. *)
Theorem ledger_stays_matched (rs : list request) (w : world) :
  ledger_matches (db w) ->
  ledger_matches (db (serve_all reliable rs w)).
Proof.
  unfold serve_all. revert w.
  induction rs as [|r rs IH]; intros w Hw; cbn [fold_left]; [done|].
  apply IH. destruct r; cbn [serve].
  - by rewrite validate_voter_db.
  - by apply vote_keeps_ledger.
  - by rewrite get_results_db.
Qed.

Lemma ledger_stays_matched_witness :
  let d := db (serve_all reliable
                 [req_vote "t" {| vr_nim := "20200001"; vr_candidate_id := Sample.id1 |};
                  req_vote "u" {| vr_nim := "20200001"; vr_candidate_id := Sample.id2 |};
                  req_validate {| vq_nim := "20200002" |};
                  req_vote "v" {| vr_nim := "20200002"; vr_candidate_id := Sample.id2 |};
                  req_results]
                 Sample.w0) in
  ledger_matches d.
Proof.
  apply (ledger_stays_matched
           [req_vote "t" {| vr_nim := "20200001"; vr_candidate_id := Sample.id1 |};
            req_vote "u" {| vr_nim := "20200001"; vr_candidate_id := Sample.id2 |};
            req_validate {| vq_nim := "20200002" |};
            req_vote "v" {| vr_nim := "20200002"; vr_candidate_id := Sample.id2 |};
            req_results]
           Sample.w0).
  split; [apply NoDup_nil_2 | split; [apply Forall_nil_2 | reflexivity]].
Defined.

(** ** Sorting by ballot number *)

Section SortBy.

Context {A : Type} (key : A -> Z).

Lemma insert_by_perm (x : A) (l : list A) : insert_by key x l ≡ₚ x :: l.
Proof.
  induction l as [|y l IH]; cbn [insert_by]; [done|].
  destruct (key x <=? key y); [done|].
  rewrite IH. apply Permutation_swap.
Qed.

Lemma sort_by_perm (l : list A) : sort_by key l ≡ₚ l.
Proof.
  induction l as [|x l IH]; [done|].
  cbn [sort_by fold_right]. fold (sort_by key l).
  by rewrite insert_by_perm, IH.
Qed.

Lemma insert_by_sorted (x : A) (l : list A) :
  StronglySorted (fun a b => key a <= key b) l ->
  StronglySorted (fun a b => key a <= key b) (insert_by key x l).
Proof.
  induction 1 as [|y l Hs IH Hall]; cbn [insert_by].
  - apply SSorted_cons; [apply SSorted_nil | apply Forall_nil_2].
  - destruct (key x <=? key y) eqn:E.
    + apply Z.leb_le in E. apply SSorted_cons.
      * by apply SSorted_cons.
      * apply Forall_cons. split; [done|].
        eapply Forall_impl; [exact Hall|]. cbn. intros z Hz. lia.
    + apply Z.leb_gt in E. apply SSorted_cons; [exact IH|].
      rewrite insert_by_perm. apply Forall_cons. split; [lia | exact Hall].
Qed.

Lemma sort_by_sorted (l : list A) :
  StronglySorted (fun a b => key a <= key b) (sort_by key l).
Proof.
  induction l as [|x l IH]; [apply SSorted_nil|].
  cbn [sort_by fold_right]. by apply insert_by_sorted.
Qed.

Lemma insert_by_filter (k : Z) (x : A) (l : list A) :
  filter (fun y => key y = k) (insert_by key x l) =
  filter (fun y => key y = k) (x :: l).
Proof.
  induction l as [|y l IH]; cbn [insert_by]; [done|].
  destruct (key x <=? key y) eqn:E; [done|]. apply Z.leb_gt in E.
  rewrite (filter_cons _ y), IH, !(filter_cons _ x), (filter_cons _ y).
  destruct (decide (key x = k)) as [Hx|Hx]; destruct (decide (key y = k)) as [Hy|Hy];
    try reflexivity.
  exfalso. lia.
Qed.

(** The sort is stable: the elements of one key keep their order. *)
Lemma sort_by_stable (k : Z) (l : list A) :
  filter (fun y => key y = k) (sort_by key l) = filter (fun y => key y = k) l.
Proof.
  induction l as [|x l IH]; [done|].
  cbn [sort_by fold_right]. fold (sort_by key l).
  by rewrite insert_by_filter, !(filter_cons _ x), IH.
Qed.

End SortBy.

Lemma sort_by_number_eq (l : list ResultsItem) : sort_by_number l = sort_by ri_number l.
Proof.
  unfold sort_by_number, sort_by. induction l as [|x l IH]; [done|].
  cbn [fold_right]. rewrite IH. generalize (fold_right (insert_by ri_number) [] l).
  intros l'. induction l' as [|y l' IH']; cbn [insert_by_number insert_by]; [done|].
  by rewrite IH'.
Qed.

Lemma filter_map_key {A B} (f : A -> B) (ka : A -> Z) (kb : B -> Z) (k : Z) (l : list A) :
  (forall a, kb (f a) = ka a) ->
  filter (fun y => kb y = k) (map f l) = map f (filter (fun a => ka a = k) l).
Proof.
  intros H. induction l as [|a l IH]; [done|].
  cbn [map]. rewrite !filter_cons, H.
  destruct (decide (ka a = k)); cbn [map]; by rewrite IH.
Qed.

(** The tally returns one aggregate per candidate of the registry, and no
    other, in ascending order of ballot number, candidates of the same
    number in the order of the registry. *)
Theorem results_listed_by_number (w : world) :
  let cs := candidate (db w) in
  let r := tally cs (group_count (vote (db w))) in
  StronglySorted (fun a b => ri_number a <= ri_number b) (results r) /\
  map ri_candidate_id (results r) ≡ₚ candidate_ids cs /\
  length (results r) = length cs /\
  (forall k : Z,
      map ri_candidate_id (filter (fun x => ri_number x = k) (results r)) =
      candidate_ids (filter (fun c => number c = k) cs)).
Proof.
  intros cs r. subst r. cbn [tally results]. rewrite sort_by_number_eq.
  set (m := store_rows _ _). set (T := sum_values m).
  split; [apply sort_by_sorted|]. split; [|split].
  - rewrite sort_by_perm. unfold candidate_ids. by rewrite map_map.
  - by rewrite sort_by_perm, length_map.
  - intros k. rewrite sort_by_stable.
    rewrite (filter_map_key (results_item m T) number ri_number) by done.
    unfold candidate_ids. by rewrite map_map.
Qed.

(** ** Listing the candidates *)

Lemma run_list_candidates (w : world) :
  run reliable list_candidates w =
  (inl (map to_public_candidate (sort_by number (candidate (db w)))),
   see w [Read coll_candidate]).
Proof. unfold list_candidates. by rewrite run_call. Qed.

(** [list_candidates] writes nothing, and lists every candidate of the
    registry once, under its printed identifier, in ascending order of
    ballot number, candidates of the same number in the order of the
    registry. *)
Theorem candidates_listed_by_number (faulty : nat -> bool) (w : world) :
  let cs := candidate (db w) in
  let l := map to_public_candidate (sort_by number cs) in
  db (snd (run faulty list_candidates w)) = db w /\
  fst (run reliable list_candidates w) = inl l /\
  StronglySorted (fun a b => cp_number a <= cp_number b) l /\
  map cp_id l ≡ₚ candidate_ids cs /\
  (forall k : Z,
      filter (fun x => cp_number x = k) l =
      map to_public_candidate (filter (fun c => number c = k) cs)).
Proof.
  intros cs l. subst l. split; [|split; [|split; [|split]]].
  - unfold list_candidates. rewrite run_call. by destruct (faulty _).
  - by rewrite run_list_candidates.
  - pose proof (sort_by_sorted number cs) as H.
    induction H as [|c l' Hs IH Hall]; cbn [map]; [apply SSorted_nil|].
    apply SSorted_cons; [exact IH|].
    apply Forall_fmap. eapply Forall_impl; [exact Hall|]. done.
  - rewrite map_map. unfold candidate_ids.
    change (fun x => cp_id (to_public_candidate x)) with (fun c => Bson.str (_id c)).
    by rewrite sort_by_perm.
  - intros k. rewrite (filter_map_key to_public_candidate number cp_number) by done.
    by rewrite sort_by_stable.
Qed.

(** ** Attribution of a ballot *)

Lemma insert_by_map {A B} (f : A -> B) (ka : A -> Z) (kb : B -> Z) (x : A) (l : list A) :
  (forall a, kb (f a) = ka a) ->
  insert_by kb (f x) (map f l) = map f (insert_by ka x l).
Proof.
  intros H. induction l as [|y l IH]; cbn [map insert_by]; [done|].
  rewrite !H. destruct (ka x <=? ka y); cbn [map]; by rewrite ?IH.
Qed.

Lemma sort_by_map {A B} (f : A -> B) (ka : A -> Z) (kb : B -> Z) (l : list A) :
  (forall a, kb (f a) = ka a) ->
  sort_by kb (map f l) = map f (sort_by ka l).
Proof.
  intros H. induction l as [|x l IH]; [done|].
  cbn [map sort_by fold_right]. fold (sort_by kb (map f l)). fold (sort_by ka l).
  by rewrite IH, (insert_by_map f ka kb).
Qed.

(** The aggregates are those of the candidates sorted by number. *)
Lemma results_as_map (cs : list Candidate) (rows : list (string * Z)) :
  results (tally cs rows) =
  map (results_item (store_rows rows (zero_counts cs)) (total_votes (tally cs rows)))
      (sort_by number cs).
Proof.
  cbn [tally results total_votes]. rewrite sort_by_number_eq.
  by apply sort_by_map.
Qed.

Lemma attributed_counts (now : string) (p : VoteRequest) (w : world) :
  rejection p (db w) = None ->
  let w' := snd (run reliable (cast_vote now p) w) in
  let r := tally (candidate (db w)) (group_count (vote (db w))) in
  let r' := tally (candidate (db w')) (group_count (vote (db w'))) in
  total_votes r' = total_votes r + 1 /\
  map (fun x => (ri_candidate_id x, ri_count x)) (results r') =
  map (fun x => (ri_candidate_id x,
                 ri_count x +
                 (if decide (vr_candidate_id p = ri_candidate_id x) then 1 else 0)))
      (results r).
Proof.
  intros H w' r r'. subst w' r r'.
  rewrite run_cast_vote, H. cbn [snd db].
  unfold voted_db, set_voterstatus, append_vote. cbn [candidate vote].
  rewrite !results_as_map, !total_is_length, length_app. cbn [length].
  split; [lia|].
  rewrite !map_map. apply map_ext. intros c.
  cbn [results_item ri_candidate_id ri_count].
  rewrite !counts_map_get, ballots_for_snoc. done.
Qed.

(** A vote that went through raises the total by one and the count of
    the candidates whose printed identifier is the voted reference by
    one; every other count is as before. *)
Theorem vote_is_attributed (now : string) (p : VoteRequest) (w : world) :
  fst (run reliable (cast_vote now p) w) = inl true ->
  let w' := snd (run reliable (cast_vote now p) w) in
  let r := tally (candidate (db w)) (group_count (vote (db w))) in
  let r' := tally (candidate (db w')) (group_count (vote (db w'))) in
  total_votes r' = total_votes r + 1 /\
  map (fun x => (ri_candidate_id x, ri_count x)) (results r') =
  map (fun x => (ri_candidate_id x,
                 ri_count x +
                 (if decide (vr_candidate_id p = ri_candidate_id x) then 1 else 0)))
      (results r).
Proof.
  intros H. apply attributed_counts. by apply (cast_vote_success now).
Qed.

Lemma vote_is_attributed_witness :
  let p := {| vr_nim := "20200001"; vr_candidate_id := Sample.id2 |} in
  let w := Sample.with_votes [Sample.id1] in
  let w' := snd (run reliable (cast_vote "t" p) w) in
  let r := tally (candidate (db w)) (group_count (vote (db w))) in
  let r' := tally (candidate (db w')) (group_count (vote (db w'))) in
  total_votes r' = total_votes r + 1 /\
  map (fun x => (ri_candidate_id x, ri_count x)) (results r') =
  map (fun x => (ri_candidate_id x,
                 ri_count x +
                 (if decide (vr_candidate_id p = ri_candidate_id x) then 1 else 0)))
      (results r).
Proof.
  exact (vote_is_attributed "t"
           {| vr_nim := "20200001"; vr_candidate_id := Sample.id2 |}
           (Sample.with_votes [Sample.id1]) eq_refl).
Defined.

(** A vote that went through for a reference that is the printed
    identifier of no candidate (the reference resolves all the same when
    it is written in upper case) raises the total and no count. *)
Theorem unlisted_reference_counts_for_nobody (now : string) (p : VoteRequest) (w : world) :
  fst (run reliable (cast_vote now p) w) = inl true ->
  vr_candidate_id p ∉ candidate_ids (candidate (db w)) ->
  let w' := snd (run reliable (cast_vote now p) w) in
  let r := tally (candidate (db w)) (group_count (vote (db w))) in
  let r' := tally (candidate (db w')) (group_count (vote (db w'))) in
  total_votes r' = total_votes r + 1 /\
  map ri_count (results r') = map ri_count (results r) /\
  sum_counts (results r') = sum_counts (results r).
Proof.
  intros H Hnot w' r r'.
  destruct (attributed_counts now p w (cast_vote_success now p w H)) as [Ht Hc].
  fold w' r r' in Ht, Hc.
  assert (Hm : map ri_count (results r') = map ri_count (results r)).
  { apply (f_equal (map snd)) in Hc. rewrite !map_map in Hc. cbn [snd] in Hc.
    etrans; [exact Hc|]. apply map_ext_in. intros x Hx.
    rewrite decide_False; [lia|]. intros E. apply Hnot. rewrite E.
    apply list_elem_of_In in Hx.
    subst r. apply results_elem in Hx as (c & Hin & ->).
    cbn [results_item ri_candidate_id]. unfold candidate_ids.
    apply list_elem_of_fmap. by exists c. }
  split; [exact Ht|]. split; [exact Hm|].
  assert (Hs : forall l, sum_counts l = fold_right Z.add 0 (map ri_count l)).
  { induction l as [|x l IH]; [done|]. rewrite sum_counts_cons, IH. done. }
  by rewrite !Hs, Hm.
Qed.

Lemma unlisted_reference_counts_for_nobody_witness :
  let p := {| vr_nim := "20200001"; vr_candidate_id := "64B7F0A1C2D3E4F5A6B7C8D1" |} in
  let w := Sample.w0 in
  let w' := snd (run reliable (cast_vote "t" p) w) in
  let r := tally (candidate (db w)) (group_count (vote (db w))) in
  let r' := tally (candidate (db w')) (group_count (vote (db w'))) in
  total_votes r' = total_votes r + 1 /\
  map ri_count (results r') = map ri_count (results r) /\
  sum_counts (results r') = sum_counts (results r).
Proof.
  apply (unlisted_reference_counts_for_nobody "t"
           {| vr_nim := "20200001"; vr_candidate_id := "64B7F0A1C2D3E4F5A6B7C8D1" |}
           Sample.w0 eq_refl).
  apply (bool_decide_unpack _). vm_compute. exact I.
Defined.

(** ** A candidate without ballots *)

Lemma iter_shr_zero (p : positive) :
  SpecFloat.iter_pos shr_1 p {| shr_m := 0; shr_r := false; shr_s := false |} =
  {| shr_m := 0; shr_r := false; shr_s := false |}.
Proof.
  induction p as [p IH | p IH |]; cbn [SpecFloat.iter_pos shr_1 orb];
    by rewrite ?IH.
Qed.

Lemma shr_fexp_zero (e : Z) :
  exists e' : Z,
    shr_fexp Float64.prec Float64.emax 0 e loc_Exact =
    ({| shr_m := 0; shr_r := false; shr_s := false |}, e').
Proof.
  unfold shr_fexp, shr. cbn [Zdigits2 shr_record_of_loc].
  destruct (fexp Float64.prec Float64.emax (0 + e) - e) as [|p|p];
    rewrite ?iter_shr_zero; eauto.
Qed.

Lemma binary_round_aux_zero (s : bool) (e : Z) :
  binary_round_aux Float64.prec Float64.emax s 0 e loc_Exact = S754_zero s.
Proof.
  unfold binary_round_aux.
  destruct (shr_fexp_zero e) as [e1 ->].
  cbn [shr_m loc_of_shr_record round_nearest_even].
  destruct (shr_fexp_zero e1) as [e2 ->]. reflexivity.
Qed.

Lemma div_int_zero (total : Z) : 0 < total -> Float64.div_int 0 total = Float64.zero.
Proof.
  intros H. unfold Float64.div_int, SFdiv_core_binary.
  rewrite (proj2 (Z.ltb_ge total 0)) by lia.
  change (0 <? 0) with false. change (Z.abs 0) with 0. cbn [xorb].
  rewrite Z.abs_eq by lia.
  set (sh := 0 - 0 - _).
  replace (match sh with 0 => 0 | Z.pos _ => Z.shiftl 0 sh | Z.neg _ => 0 end) with 0
    by (destruct sh; [reflexivity | by rewrite Z.shiftl_0_l | reflexivity]).
  replace (Z.div_eucl 0 total) with (0, 0).
  - rewrite new_location_exact. apply binary_round_aux_zero.
  - pose proof (Z_div_mod 0 total ltac:(lia)) as Hd.
    destruct (Z.div_eucl 0 total) as [q r]. destruct Hd as [Hq Hr].
    assert (q = 0) by nia. subst q. f_equal. lia.
Qed.

Lemma percentage_of_zero (total : Z) : percentage_of 0 total = Float64.zero.
Proof.
  unfold percentage_of. destruct (0 <? total) eqn:E; [|reflexivity].
  apply Z.ltb_lt in E. by rewrite div_int_zero.
Qed.

(** A candidate that no ballot names is returned with count 0 and with
    the percentage 0.0 exactly, whatever the total. *)
Theorem no_ballot_no_percentage (w : world) :
  let r := tally (candidate (db w)) (group_count (vote (db w))) in
  Forall (fun x =>
            ballots_for (ri_candidate_id x) (vote (db w)) = 0 ->
            ri_count x = 0 /\ ri_percentage x = Float64.zero)
         (results r).
Proof.
  intros r. apply Forall_forall. intros x Hx H0.
  apply results_item_spec in Hx as [Hc Hp].
  rewrite Hp, Hc, H0. split; [reflexivity | apply percentage_of_zero].
Qed.

(** ** Identifiers printed and read back *)





(** The printed form of a twelve-byte identifier is read back by [objid]
    as the same identifier. *)
Theorem objid_reads_printed_id (o : ObjectId) :
  twelve_bytes o -> objid (Bson.str o) = inl o.
Proof.
  intros H. unfold objid. by rewrite parse_printed_id.
Qed.

Lemma sample_id_twelve_bytes : twelve_bytes (Sample.oid Sample.id1).
Proof.
  split; [reflexivity|]. vm_compute. repeat constructor.
Defined.

Lemma objid_reads_printed_id_witness :
  objid (Bson.str (Sample.oid Sample.id1)) = inl (Sample.oid Sample.id1).
Proof.
  exact (objid_reads_printed_id (Sample.oid Sample.id1) sample_id_twelve_bytes).
Defined.



(** Every identifier that [list_candidates] shows can be voted for: an
    eligible voter who has not voted and sends the listed identifier of a
    candidate gets success, and the ballot stored carries that
    identifier. *)
Theorem listed_candidate_can_be_voted (now n : string) (c : Candidate) (w : world) :
  c ∈ candidate (db w) ->
  twelve_bytes (_id c) ->
  eligible_voter n (db w) = true ->
  voted n (db w) = false ->
  let cid := cp_id (to_public_candidate c) in
  cid ∈ candidate_ids (candidate (db w)) /\
  fst (run reliable (cast_vote now {| vr_nim := n; vr_candidate_id := cid |}) w) = inl true /\
  vote (db (snd (run reliable (cast_vote now {| vr_nim := n; vr_candidate_id := cid |}) w)))
  = vote (db w) ++ [{| candidate_id := cid |}].
Proof.
  intros Hin Htw He Hv cid. subst cid. cbn [to_public_candidate cp_id].
  pose proof (printed_id_resolves c (db w) Hin Htw) as Hres.
  split; [unfold candidate_ids; apply list_elem_of_fmap; by exists c|].
  rewrite run_cast_vote.
  rewrite (proj2 (rejection_None {| vr_nim := n; vr_candidate_id := Bson.str (_id c) |}
                    (db w)) (conj He (conj Hv Hres))).
  by split.
Qed.

Lemma listed_candidate_can_be_voted_witness :
  let c := Sample.cand Sample.id2 2 "C" "D" in
  let cid := cp_id (to_public_candidate c) in
  cid ∈ candidate_ids (candidate (db Sample.w0)) /\
  fst (run reliable (cast_vote "t" {| vr_nim := "20200004"; vr_candidate_id := cid |})
         Sample.w0) = inl true /\
  vote (db (snd (run reliable
                   (cast_vote "t" {| vr_nim := "20200004"; vr_candidate_id := cid |})
                   Sample.w0)))
  = vote (db Sample.w0) ++ [{| candidate_id := cid |}].
Proof.
  apply (listed_candidate_can_be_voted "t" "20200004"
           (Sample.cand Sample.id2 2 "C" "D") Sample.w0).
  - constructor 2. constructor 1.
  - split; [reflexivity|]. vm_compute. repeat constructor.
  - reflexivity.
  - reflexivity.
Defined.

(** ** Seeding the demo data *)

(** Seeding twice is seeding once: whatever identifiers the driver gives
    the second time, a second call changes nothing. *)
Theorem seed_demo_once (i1 i2 j1 j2 : ObjectId) (data : SeedRequest) (d : DB) :
  seed_demo j1 j2 data (seed_demo i1 i2 data d) = seed_demo i1 i2 data d.
Proof.
  destruct d as [vo st ca vt], data as [[|] [|]]; unfold seed_demo;
    cbn [create_candidates create_voters candidate voter voterstatus vote andb];
    destruct ca as [|c ca], vo as [|v vo]; reflexivity.
Qed.

(** Seeding never touches the ballots or the ledger, never changes a
    collection that already holds a document, and never changes one whose
    flag is off; an empty collection whose flag is on receives the demo
    documents. *)
Theorem seed_demo_keeps_data (i1 i2 : ObjectId) (data : SeedRequest) (d : DB) :
  let d' := seed_demo i1 i2 data d in
  vote d' = vote d /\
  voterstatus d' = voterstatus d /\
  (candidate d <> [] \/ create_candidates data = false -> candidate d' = candidate d) /\
  (voter d <> [] \/ create_voters data = false -> voter d' = voter d) /\
  (candidate d = [] -> create_candidates data = true ->
   candidate d' = demo_candidates i1 i2) /\
  (voter d = [] -> create_voters data = true -> voter d' = demo_voters).
Proof.
  destruct d as [vo st ca vt], data as [[|] [|]]; unfold seed_demo;
    cbn [create_candidates create_voters candidate voter voterstatus vote andb];
    destruct ca as [|c ca], vo as [|v vo]; cbn [length Nat.eqb app candidate voter];
    repeat split; try reflexivity; try discriminate;
    intros [H|H]; first [discriminate | by destruct H].
Qed.

(** After seeding a database that has no voter, no candidate and no
    status record, every demo voter can vote for every demo candidate
    under its printed identifier. *)
Theorem seeded_voters_can_vote
    (i1 i2 : ObjectId) (d : DB) (t : list access) (now : string) (v : Voter) (c : Candidate) :
  voter d = [] -> candidate d = [] -> voterstatus d = [] ->
  twelve_bytes i1 -> twelve_bytes i2 ->
  v ∈ demo_voters -> c ∈ demo_candidates i1 i2 ->
  let w := {| db := seed_demo i1 i2 {| create_candidates := true; create_voters := true |} d;
              trace := t |} in
  fst (run reliable
         (cast_vote now {| vr_nim := nim v; vr_candidate_id := Bson.str (_id c) |}) w)
  = inl true.
Proof.
  intros Hv Hc Hs T1 T2 Hin Hcin w.
  assert (Hdb : db w = {| voter := demo_voters; voterstatus := [];
                          candidate := demo_candidates i1 i2; vote := vote d |}).
  { subst w. destruct d as [vo st ca vt]. cbn in Hv, Hc, Hs. subst. reflexivity. }
  rewrite cast_vote_answer.
  assert (Hrej : rejection {| vr_nim := nim v; vr_candidate_id := Bson.str (_id c) |} (db w)
                 = None).
  { apply rejection_None. cbn [vr_nim vr_candidate_id]. rewrite Hdb. split; [|split].
    - unfold eligible_voter. cbn [voter].
      repeat (apply elem_of_cons in Hin as [->|Hin]; [reflexivity|]).
      by apply elem_of_nil in Hin.
    - reflexivity.
    - apply printed_id_resolves; [exact Hcin|].
      apply elem_of_cons in Hcin as [->|Hcin]; [exact T1|].
      apply list_elem_of_singleton in Hcin. by subst c. }
  by rewrite Hrej.
Qed.

Lemma seeded_voters_can_vote_witness :
  let c := {| _id := Sample.oid Sample.id2; number := 2;
              president_name := "Budi Santoso"; vice_name := "Rina Kartika";
              vision := Some "Kampus inklusif dan berprestasi.";
              mission := Some ["Akses pendidikan merata"; "Program beasiswa"];
              photo_url := Some "https://picsum.photos/seed/cand2/400/400" |} in
  let v := {| nim := "20200003"; name := Some "Mahasiswa 3";
              program := Some "Informatika"; eligible := Some true |} in
  let w := {| db := seed_demo (Sample.oid Sample.id1) (Sample.oid Sample.id2)
                      {| create_candidates := true; create_voters := true |}
                      {| voter := []; voterstatus := []; candidate := []; vote := [] |};
              trace := [] |} in
  fst (run reliable
         (cast_vote "t" {| vr_nim := nim v; vr_candidate_id := Bson.str (_id c) |}) w)
  = inl true.
Proof.
  apply (seeded_voters_can_vote (Sample.oid Sample.id1) (Sample.oid Sample.id2)
           {| voter := []; voterstatus := []; candidate := []; vote := [] |} [] "t").
  - reflexivity.
  - reflexivity.
  - reflexivity.
  - split; [reflexivity|]. vm_compute. repeat constructor.
  - split; [reflexivity|]. vm_compute. repeat constructor.
  - constructor 2. constructor 2. constructor 1.
  - constructor 2. constructor 1.
Defined.

(** ** The ledger when the store fails *)

Lemma unvoted_no_record (n : string) (d : DB) :
  Forall (fun s => has_voted s = Some true) (voterstatus d) ->
  voted n d = false -> lookup_status n (voterstatus d) = None.
Proof.
  intros Hall. unfold voted.
  destruct (lookup_status n (voterstatus d)) as [s|] eqn:E; [|done].
  unfold lookup_status in E. apply find_some in E as [Hin _].
  apply list_elem_of_In in Hin.
  rewrite Forall_forall in Hall. pose proof (Hall s Hin) as Hv.
  unfold get_has_voted. by rewrite Hv.
Qed.

Lemma vote_keeps_ledger_within (faulty : nat -> bool) (now : string) (p : VoteRequest)
    (w : world) :
  ledger_within (db w) ->
  ledger_within (db (snd (run faulty (cast_vote now p) w))).
Proof.
  intros (Hnd & Hall & Hlen).
  destruct (cast_vote_effect faulty now p w)
    as [[Hd _] | [(_ & _ & Hd) | (Hrej & _ & Hd)]]; rewrite Hd.
  - done.
  - unfold ledger_within, append_vote. cbn [voterstatus vote].
    rewrite length_app. cbn [length]. repeat split; [done | done | lia].
  - apply rejection_None in Hrej as (_ & Hv & _).
    pose proof (unvoted_no_record _ _ Hall Hv) as Hnone.
    unfold ledger_within, voted_db, set_voterstatus, append_vote.
    cbn [voterstatus vote].
    rewrite (upsert_voted_new _ _ _ Hnone).
    split; [|split].
    + rewrite map_app. cbn [map]. apply NoDup_app. split; [done|]. split.
      * intros x Hx Hx'. apply list_elem_of_singleton in Hx'. subst x.
        by apply (lookup_status_none_notin _ _ Hnone).
      * apply NoDup_singleton.
    + apply Forall_app. split; [done|]. by apply Forall_singleton.
    + rewrite !length_app. cbn [length]. lia.
Qed.

(** Whatever accesses the store fails, requests served one after the
    other never mark a voter twice, never store a record that is not a
    voted one, and never leave more marked voters than ballots: a voter
    who is marked has a ballot stored. *)
Theorem ledger_within_ballots (faulty : nat -> bool) (rs : list request) (w : world) :
  ledger_within (db w) ->
  ledger_within (db (serve_all faulty rs w)).
Proof.
  unfold serve_all. revert w.
  induction rs as [|r rs IH]; intros w Hw; cbn [fold_left]; [done|].
  apply IH. destruct r; cbn [serve].
  - by rewrite validate_voter_db.
  - by apply vote_keeps_ledger_within.
  - by rewrite get_results_db.
Qed.

Lemma ledger_within_ballots_witness :
  ledger_within
    (db (serve_all (fun k => Nat.eqb k 4)
           [req_vote "t" {| vr_nim := "20200001"; vr_candidate_id := Sample.id1 |};
            req_vote "u" {| vr_nim := "20200001"; vr_candidate_id := Sample.id1 |};
            req_results]
           Sample.w0)).
Proof.
  apply (ledger_within_ballots (fun k => Nat.eqb k 4)
           [req_vote "t" {| vr_nim := "20200001"; vr_candidate_id := Sample.id1 |};
            req_vote "u" {| vr_nim := "20200001"; vr_candidate_id := Sample.id1 |};
            req_results]
           Sample.w0).
  split; [apply NoDup_nil_2 | split; [apply Forall_nil_2 | cbn; lia]].
Defined.

(** When the write of the status fails after the ballot was stored, the
    voter is not marked and a second request of the same voter is
    accepted: two ballots are stored for one voter. *)
Theorem failed_status_write_allows_second_vote
    (now1 now2 : string) (p : VoteRequest) (w : world) :
  rejection p (db w) = None ->
  let k := length (trace w) in
  let faulty := fun i => Nat.eqb i (k + 4) in
  let r1 := run faulty (cast_vote now1 p) w in
  let r2 := run faulty (cast_vote now2 p) (snd r1) in
  fst r1 = inr StoreError /\ fst r2 = inl true /\
  vote (db (snd r2)) =
    vote (db w) ++ [{| candidate_id := vr_candidate_id p |};
                    {| candidate_id := vr_candidate_id p |}].
Proof.
  intros Hrej k faulty r1 r2.
  pose proof (proj1 (rejection_None p (db w)) Hrej) as (He & Hv & Hc).
  assert (F : forall i, (i < 4)%nat -> faulty (k + i)%nat = false).
  { intros i Hi. subst faulty. cbn. apply Nat.eqb_neq. lia. }
  assert (F4 : faulty (k + 4)%nat = true) by (subst faulty; cbn; apply Nat.eqb_refl).
  assert (G : forall i, (4 < i)%nat -> faulty (k + i)%nat = false).
  { intros i Hi. subst faulty. cbn. apply Nat.eqb_neq. lia. }
  assert (H1 : r1 = (inr StoreError,
                     {| db := append_vote {| candidate_id := vr_candidate_id p |} (db w);
                        trace := trace w ++ accepted_accesses |})).
  { subst r1. revert He Hv Hc. unfold eligible_voter, voted, resolves, cast_vote, objid.
    rewrite run_call. fold k. rewrite <- (Nat.add_0_r k) at 1. rewrite (F 0%nat) by lia.
    cbn [perform fst snd db trace].
    destruct (lookup_voter (vr_nim p) (voter (db w))) as [v|]; [|discriminate].
    intros ->. cbn [negb].
    rewrite run_call. cbn [trace]. rewrite length_app. cbn [length]. fold k.
    rewrite (F 1%nat) by lia. cbn [perform fst snd db trace].
    intros ->.
    destruct (Bson.parse (vr_candidate_id p)) as [o|]; [|discriminate].
    intros Hf. rewrite run_call. cbn [trace].
    rewrite !length_app. cbn [length]. fold k.
    replace (k + 1 + 1)%nat with (k + 2)%nat by lia. rewrite (F 2%nat) by lia.
    cbn [perform fst snd db trace]. rewrite Hf. cbn [negb].
    rewrite run_call. cbn [trace]. rewrite !length_app. cbn [length]. fold k.
    replace (k + 1 + 1 + 1)%nat with (k + 3)%nat by lia. rewrite (F 3%nat) by lia.
    cbn [perform fst snd db trace].
    rewrite run_call. cbn [trace]. rewrite !length_app. cbn [length]. fold k.
    replace (k + 1 + 1 + 1 + 1)%nat with (k + 4)%nat by lia. rewrite F4.
    unfold see, accepted_accesses. cbn [db trace access_of]. by rewrite <- !app_assoc. }
  assert (H2 : r2 = (inl true,
                     {| db := voted_db (vr_nim p) now2 (vr_candidate_id p)
                                (append_vote {| candidate_id := vr_candidate_id p |} (db w));
                        trace := (trace w ++ accepted_accesses) ++ accepted_accesses |})).
  { subst r2. rewrite H1. cbn [snd]. unfold accepted_accesses.
    revert He Hv Hc. unfold eligible_voter, voted, resolves, cast_vote, objid.
    rewrite run_call. cbn [trace db]. rewrite length_app. cbn [length accepted_accesses].
    fold k. rewrite (G 5%nat) by lia.
    cbn [perform fst snd db trace append_vote voter voterstatus candidate].
    destruct (lookup_voter (vr_nim p) (voter (db w))) as [v|]; [|discriminate].
    intros ->. cbn [negb].
    rewrite run_call. cbn [trace db]. rewrite !length_app. cbn [length]. fold k.
    replace (k + 5 + 1)%nat with (k + 6)%nat by lia. rewrite (G 6%nat) by lia.
    cbn [perform fst snd db trace append_vote voter voterstatus candidate].
    intros ->.
    destruct (Bson.parse (vr_candidate_id p)) as [o|]; [|discriminate].
    intros Hf. rewrite run_call. cbn [trace db].
    rewrite !length_app. cbn [length]. fold k.
    replace (k + 5 + 1 + 1)%nat with (k + 7)%nat by lia. rewrite (G 7%nat) by lia.
    cbn [perform fst snd db trace append_vote voter voterstatus candidate].
    rewrite Hf. cbn [negb].
    rewrite run_call. cbn [trace db]. rewrite !length_app. cbn [length]. fold k.
    replace (k + 5 + 1 + 1 + 1)%nat with (k + 8)%nat by lia. rewrite (G 8%nat) by lia.
    cbn [perform fst snd db trace].
    rewrite run_call. cbn [trace db]. rewrite !length_app. cbn [length]. fold k.
    replace (k + 5 + 1 + 1 + 1 + 1)%nat with (k + 9)%nat by lia. rewrite (G 9%nat) by lia.
    cbn [perform fst snd db trace run].
    unfold voted_db, accepted_accesses. cbn [access_of].
    f_equal. f_equal. by rewrite <- !app_assoc. }
  rewrite H2, H1. cbn [fst snd db voted_db set_voterstatus append_vote vote].
  repeat split. by rewrite <- app_assoc.
Qed.

Lemma failed_status_write_allows_second_vote_witness :
  let p := {| vr_nim := "20200001"; vr_candidate_id := Sample.id1 |} in
  let faulty := fun i => Nat.eqb i 4 in
  let r1 := run faulty (cast_vote "t" p) Sample.w0 in
  let r2 := run faulty (cast_vote "u" p) (snd r1) in
  fst r1 = inr StoreError /\ fst r2 = inl true /\
  vote (db (snd r2)) = Sample.ballots [Sample.id1; Sample.id1].
Proof.
  exact (failed_status_write_allows_second_vote "t" "u"
           {| vr_nim := "20200001"; vr_candidate_id := Sample.id1 |} Sample.w0 eq_refl).
Defined.

(** ** Requests served at once *)

Lemma interleave_keeps_voted_witness :
  let w1 := snd (run reliable
                   (cast_vote "t" {| vr_nim := "20200001"; vr_candidate_id := Sample.id1 |})
                   Sample.w0) in
  voted "20200001"
    (db (snd (interleave reliable [0; 1; 1; 0; 0; 1; 1; 0; 1; 0]%nat
                ([cast_vote "u" {| vr_nim := "20200001"; vr_candidate_id := Sample.id2 |};
                  cast_vote "v" {| vr_nim := "20200002"; vr_candidate_id := Sample.id2 |}],
                 w1)))) = true.
Proof.
  exact (interleave_keeps_voted reliable [0; 1; 1; 0; 0; 1; 1; 0; 1; 0]%nat
           [cast_vote "u" {| vr_nim := "20200001"; vr_candidate_id := Sample.id2 |};
            cast_vote "v" {| vr_nim := "20200002"; vr_candidate_id := Sample.id2 |}]
           "20200001"
           (snd (run reliable
                   (cast_vote "t" {| vr_nim := "20200001"; vr_candidate_id := Sample.id1 |})
                   Sample.w0))
           eq_refl).
Defined.

Lemma both_requests_win_witness :
  let p1 := {| vr_nim := "20200001"; vr_candidate_id := Sample.id1 |} in
  let p2 := {| vr_nim := "20200001"; vr_candidate_id := Sample.id2 |} in
  let s := interleave reliable [0; 1; 0; 1; 0; 1; 0; 1; 0; 1]%nat
             ([cast_vote "t" p1; cast_vote "u" p2], Sample.w0) in
  map answer (fst s) = [Some (inl true); Some (inl true)] /\
  vote (db (snd s)) =
    vote (db Sample.w0) ++ [{| candidate_id := Sample.id1 |};
                            {| candidate_id := Sample.id2 |}].
Proof.
  exact (both_requests_win "t" "u"
           {| vr_nim := "20200001"; vr_candidate_id := Sample.id1 |}
           {| vr_nim := "20200001"; vr_candidate_id := Sample.id2 |}
           Sample.w0 eq_refl eq_refl).
Defined.
